(** * pgx: the pguint32 value codec and the batch pipeline

    A shallow embedding of [pgtype/pguint32.go] and of the batch tests of
    [batch_test.go], with the properties of the codec contract and of the
    batch controller stated and proved over it.

    Conventions.
    - A Go [uint32]/[uint64]/[int] is a [Z]; wrap-around is written out
      with [mod].
    - A Go [[]byte] is an [option (list byte)]: [None] is the nil slice.
      A Go [string] is a [list byte] (an immutable byte sequence).
    - A method with a pointer receiver that assigns [*dst] takes the old
      value of [*dst] and returns the new one.
    - A Go [error] result is an [option error]; [None] is [nil]. *)

From Stdlib Require Import ZArith List String Lia Bool.
From Stdlib Require Import Strings.Byte.
From stdpp Require Import base list.

Local Open Scope Z_scope.

(** ** Bytes *)

Definition byte_to_Z (b : byte) : Z := Z.of_N (Byte.to_N b).

(** The conversion [byte(z)] of Go: the low eight bits. *)
Definition Z_to_byte (z : Z) : byte :=
  default x00 (Byte.of_N (Z.to_N (z mod 256))).

Definition len {A} (l : list A) : Z := Z.of_nat (length l).

(** Go string literals, written as Rocq strings. *)
Definition bytes_of (s : string) : list byte := list_byte_of_string s.

(** ** Errors *)

(** The errors of the embedding: [errorString] is what [errors.New] and
    [fmt.Errorf] build, [NumError] is [*strconv.NumError], [errUndefined] is
    the package variable of pgtype that the encoders return, [cannotAssign]
    is the [fmt.Errorf("cannot assign %v into %T", src, dst)] of [AssignTo]
    with its arguments kept as they are, and [runtimeError] stands for a
    run-time panic in a function that otherwise returns an error. The batch
    tests compare errors with [pgx.PgError] (by its [Code]) and with
    [context.Canceled]; the last four are the dead-connection, desynchronised
    stream, skipped-statement and no-pending-result conditions of the batch
    controller. *)

Inductive strconv_err := ErrSyntax | ErrRange.

Inductive Status := Undefined | Null | Present.

(** [pguint32] of pguint32.go. The field [Status] is spelled [status]: the
    type of that name is already [Status]. *)
Record pguint32 := mk_pguint32 { Uint : Z; status : Status }.

(** The zero value of the struct, and the composite literal
    [pguint32{Status: s}], which leaves [Uint] zero. *)
Definition pguint32_Status (s : Status) : pguint32 :=
  {| Uint := 0; status := s |}.

(** ** Go values held by an [interface{}]

    A fragment of Go's types large enough for the type switches of
    pguint32.go: the integer kinds, booleans, strings, byte slices and the
    two pointer types the switches name. A pointer is nil ([None]) or the
    location of a cell of the heap below. *)

Definition loc := nat.

Inductive GoValue :=
| VNil
| VBool (b : bool)
| VInt (n : Z) | VInt8 (n : Z) | VInt16 (n : Z) | VInt32 (n : Z) | VInt64 (n : Z)
| VUint (n : Z) | VUint8 (n : Z) | VUint16 (n : Z) | VUint32 (n : Z) | VUint64 (n : Z)
| VString (s : list byte)
| VBytes (b : option (list byte))
| VPtrUint32 (p : option loc)
| VPtrPtrUint32 (p : option loc).

Inductive GoType :=
| TNil | TBool
| TInt | TInt8 | TInt16 | TInt32 | TInt64
| TUint | TUint8 | TUint16 | TUint32 | TUint64
| TString | TBytes | TPtrUint32 | TPtrPtrUint32.

Definition TypeOf (v : GoValue) : GoType :=
  match v with
  | VNil => TNil | VBool _ => TBool
  | VInt _ => TInt | VInt8 _ => TInt8 | VInt16 _ => TInt16
  | VInt32 _ => TInt32 | VInt64 _ => TInt64
  | VUint _ => TUint | VUint8 _ => TUint8 | VUint16 _ => TUint16
  | VUint32 _ => TUint32 | VUint64 _ => TUint64
  | VString _ => TString | VBytes _ => TBytes
  | VPtrUint32 _ => TPtrUint32 | VPtrPtrUint32 _ => TPtrPtrUint32
  end.

(** The range of each integer kind: what a well-typed value holds. *)
Definition in_range (v : GoValue) : Prop :=
  match v with
  | VInt n | VInt64 n => - 2 ^ 63 <= n < 2 ^ 63
  | VInt8 n => - 2 ^ 7 <= n < 2 ^ 7
  | VInt16 n => - 2 ^ 15 <= n < 2 ^ 15
  | VInt32 n => - 2 ^ 31 <= n < 2 ^ 31
  | VUint n | VUint64 n => 0 <= n < 2 ^ 64
  | VUint8 n => 0 <= n < 2 ^ 8
  | VUint16 n => 0 <= n < 2 ^ 16
  | VUint32 n => 0 <= n < 2 ^ 32
  | _ => True
  end.

Inductive error :=
| errorString (msg : string)
| NumError (Func : string) (Num : list byte) (Err : strconv_err)
| errUndefined
| cannotAssign (src : pguint32) (dst : GoType)
| runtimeError (msg : string)
| PgError (Code : string)
| Canceled
| ErrDeadConn
| ErrProtocolDesync
| ErrSkipped
| ErrNoResult.

(** ** strconv *)

Module strconv.

Definition maxUint64 : Z := 2 ^ 64 - 1.

Definition uint64 (z : Z) : Z := z mod 2 ^ 64.

(** The digit switch of the loop of [ParseUint]. *)
Definition digit_val (d : byte) : option Z :=
  let c := byte_to_Z d in
  if (48 <=? c) && (c <=? 57) then Some (c - 48)
  else if (97 <=? c) && (c <=? 122) then Some (c - 97 + 10)
  else if (65 <=? c) && (c <=? 90) then Some (c - 65 + 10)
  else None.

(** The [for ; i < len(s); i++] loop of [ParseUint], on the bytes from [i]
    on, with the accumulator [n]. *)
Fixpoint ParseUint_loop (base cutoff maxVal : Z) (s : list byte) (n : Z)
  : Z * option strconv_err :=
  match s with
  | [] => (n, None)
  | d :: s' =>
    match digit_val d with
    | None => (0, Some ErrSyntax)
    | Some v =>
      if v mod 256 >=? base mod 256 then (0, Some ErrSyntax)
      else if n >=? cutoff then (maxUint64, Some ErrRange)
      else
        let n := uint64 (n * base) in
        let n1 := uint64 (n + v) in
        if (n1 <? n) || (n1 >? maxVal) then (maxUint64, Some ErrRange)
        else ParseUint_loop base cutoff maxVal s' n1
    end
  end.

(** [strconv.ParseUint(s, base, bitSize)] of the Go library for an explicit
    base in 2..36 and a bit size in 1..64 (the prefix detection of base 0
    and the default of bit size 0 are not reached from pguint32.go). *)
Definition ParseUint (s : list byte) (base bitSize : Z) : Z * option error :=
  if len s <? 1 then (0, Some (NumError "ParseUint" s ErrSyntax))
  else
    let cutoff := maxUint64 / base + 1 in
    let maxVal := 2 ^ bitSize - 1 in
    match ParseUint_loop base cutoff maxVal s 0 with
    | (n, None) => (n, None)
    | (n, Some e) => (n, Some (NumError "ParseUint" s e))
    end.

(** The digit of [formatBits]: ["0123456789abcdefghijklmnopqrstuvwxyz"[u]]. *)
Definition digit_char (u : Z) : byte :=
  if u <? 10 then Z_to_byte (48 + u) else Z_to_byte (97 + u - 10).

(** The loop of [formatBits]: digits are produced from the least
    significant one and stored right to left. A [uint64] has at most 64
    digits in any base, which bounds the loop. *)
Fixpoint formatBits (fuel : nat) (u base : Z) (a : list byte) : list byte :=
  match fuel with
  | O => digit_char u :: a
  | S fuel' =>
    if u >=? base then
      let q := u / base in
      formatBits fuel' q base (digit_char (u - q * base) :: a)
    else digit_char u :: a
  end.

Definition FormatUint (i base : Z) : list byte := formatBits 64 i base [].

(** [FormatInt]: the sign, then the digits of the magnitude. *)
Definition FormatInt (i base : Z) : list byte :=
  if i <? 0 then bytes_of "-" ++ FormatUint (- i) base else FormatUint i base.

End strconv.

(** ** encoding/binary *)

Module BigEndian.

(** [binary.BigEndian.Uint32(b)]; the bounds check on [b[3]] panics on a
    shorter slice, which is [None] here. *)
Definition Uint32 (b : list byte) : option Z :=
  match b with
  | b0 :: b1 :: b2 :: b3 :: _ =>
    Some (Z.lor (Z.lor (Z.lor (byte_to_Z b3) (Z.shiftl (byte_to_Z b2) 8))
                       (Z.shiftl (byte_to_Z b1) 16))
                (Z.shiftl (byte_to_Z b0) 24))
  | _ => None
  end.

(** [binary.BigEndian.PutUint32(b, v)] on a fresh four-byte slice. *)
Definition PutUint32 (v : Z) : list byte :=
  [Z_to_byte (Z.shiftr v 24); Z_to_byte (Z.shiftr v 16);
   Z_to_byte (Z.shiftr v 8); Z_to_byte v].

End BigEndian.

(** ** io.Writer *)

(** The interface [io.Writer]: [Write(p)] returns the number of bytes
    written and an error, and may change the writer. *)
Class Writer (W : Type) := Write : W -> list byte -> W * (Z * option error).

(** [bytes.Buffer]: every write appends and succeeds. *)
#[export] Instance Buffer_Writer : Writer (list byte) :=
  fun buf p => (buf ++ p, (len p, None)).

Module io.

(** [io.WriteString(w, s)]: one [Write] of the bytes of [s]. *)
Definition WriteString `{Writer W} (w : W) (s : list byte)
  : W * (Z * option error) := Write w s.

End io.

Module pgio.

(** Modelled from the spec: [pgio.WriteUint32] is declared in package pgio,
    which is not among the sources; the spec gives the binary form as
    "exactly 4 bytes, big-endian, unsigned", written here with one [Write]. *)
Definition WriteUint32 `{Writer W} (w : W) (n : Z) : W * (Z * option error) :=
  Write w (BigEndian.PutUint32 n).

End pgio.

(** ** fmt *)

Module fmt.

Definition str (b : list byte) : string := string_of_list_byte b.

(** A pointer prints as its address in hexadecimal; the address of a
    location is the location itself. *)
Definition fmtPointer (p : option loc) : string :=
  match p with
  | None => "<nil>"
  | Some l => "0x" ++ str (strconv.FormatUint (Z.of_nat l) 16)
  end.

Fixpoint join (sep : string) (l : list string) : string :=
  match l with
  | [] => ""
  | [x] => x
  | x :: l' => x ++ sep ++ join sep l'
  end.

(** The verb [%v]. *)
Definition v (x : GoValue) : string :=
  match x with
  | VNil => "<nil>"
  | VBool b => if b then "true" else "false"
  | VInt n | VInt8 n | VInt16 n | VInt32 n | VInt64 n =>
    str (strconv.FormatInt n 10)
  | VUint n | VUint8 n | VUint16 n | VUint32 n | VUint64 n =>
    str (strconv.FormatUint n 10)
  | VString s => str s
  | VBytes b =>
    "[" ++ join " " (map (fun c => str (strconv.FormatUint (byte_to_Z c) 10))
                         (default [] b)) ++ "]"
  | VPtrUint32 p | VPtrPtrUint32 p => fmtPointer p
  end.

(** The verb [%T]: the name of the dynamic type. *)
Definition T (x : GoValue) : string :=
  match TypeOf x with
  | TNil => "<nil>" | TBool => "bool"
  | TInt => "int" | TInt8 => "int8" | TInt16 => "int16"
  | TInt32 => "int32" | TInt64 => "int64"
  | TUint => "uint" | TUint8 => "uint8" | TUint16 => "uint16"
  | TUint32 => "uint32" | TUint64 => "uint64"
  | TString => "string" | TBytes => "[]uint8"
  | TPtrUint32 => "*uint32" | TPtrPtrUint32 => "**uint32"
  end.

End fmt.

(** ** The heap behind the pointers of [AssignTo]

    [uint32s] holds the [uint32] variables a [*uint32] may point to and
    [pointers] the [*uint32] variables a [**uint32] may point to. A location
    is an index; allocation appends a cell. *)

Record Heap := mk_Heap { uint32s : list Z; pointers : list (option loc) }.

(** What a call does: it returns a value and leaves a heap, or panics (a nil
    or invalid pointer is dereferenced). *)
Inductive outcome (A : Type) :=
| Return (a : A) (h : Heap)
| Panic.
Arguments Return {A} a h.
Arguments Panic {A}.

(** [*v = x] for [v *uint32]. *)
Definition store_uint32 (v : option loc) (x : Z) (h : Heap) : option Heap :=
  match v with
  | Some l =>
    if decide (l < length (uint32s h))%nat
    then Some {| uint32s := <[l := x]> (uint32s h); pointers := pointers h |}
    else None
  | None => None
  end.

(** [*v = p] for [v **uint32]. *)
Definition store_pointer (v : option loc) (p : option loc) (h : Heap)
  : option Heap :=
  match v with
  | Some l =>
    if decide (l < length (pointers h))%nat
    then Some {| uint32s := uint32s h; pointers := <[l := p]> (pointers h) |}
    else None
  | None => None
  end.

(** [n := x] for a variable whose address is taken: a fresh cell. *)
Definition alloc_uint32 (x : Z) (h : Heap) : loc * Heap :=
  (length (uint32s h),
   {| uint32s := uint32s h ++ [x]; pointers := pointers h |}).

(** Every [*uint32] variable of the heap is nil or points to a cell. *)
Definition heap_wf (h : Heap) : Prop :=
  Forall (fun p => match p with
                   | Some l => (l < length (uint32s h))%nat
                   | None => True
                   end) (pointers h).

(** A pointer held by an interface value is nil or points into the heap. *)
Definition pointer_ok (dst : GoValue) (h : Heap) : Prop :=
  match dst with
  | VPtrUint32 (Some l) => (l < length (uint32s h))%nat
  | VPtrPtrUint32 (Some l) => (l < length (pointers h))%nat
  | _ => True
  end.

(** ** pgtype: pguint32.go *)

Module pgtype.

(** The conversion [uint32(n)]. *)
Definition uint32 (n : Z) : Z := n mod 2 ^ 32.

(** [func (dst *pguint32) ConvertFrom(src interface{}) error] *)
Definition ConvertFrom (dst : pguint32) (src : GoValue)
  : pguint32 * option error :=
  match src with
  | VUint32 value => ({| Uint := value; status := Present |}, None)
  | value =>
    (dst, Some (errorString
                  ("cannot convert " ++ fmt.v value ++ " to pguint32")))
  end.

(** [func (src *pguint32) AssignTo(dst interface{}) error] *)
Definition AssignTo (src : pguint32) (dst : GoValue) (h : Heap)
  : outcome (option error) :=
  match dst with
  | VPtrUint32 v =>
    match status src with
    | Present =>
      match store_uint32 v (Uint src) h with
      | Some h' => Return None h'
      | None => Panic
      end
    | _ => Return (Some (cannotAssign src (TypeOf dst))) h
    end
  | VPtrPtrUint32 v =>
    match status src with
    | Present =>
      let (n, h1) := alloc_uint32 (Uint src) h in
      match store_pointer v (Some n) h1 with
      | Some h' => Return None h'
      | None => Panic
      end
    | _ =>
      match store_pointer v None h with
      | Some h' => Return None h'
      | None => Panic
      end
    end
  | _ => Return None h
  end.

(** [AssignTo] with its receiver as the method has it, a [*pguint32] that may
    be nil ([None]): both pointer cases read [src.Status] first, which
    panics on a nil receiver; for every other destination the switch has no
    case and the receiver is not touched. *)
Definition AssignTo_method (src : option pguint32) (dst : GoValue) (h : Heap)
  : outcome (option error) :=
  match dst with
  | VPtrUint32 _ | VPtrPtrUint32 _ =>
    match src with
    | Some s => AssignTo s dst h
    | None => Panic
    end
  | _ => Return None h
  end.

(** [func (dst *pguint32) DecodeText(src []byte) error] *)
Definition DecodeText (dst : pguint32) (src : option (list byte))
  : pguint32 * option error :=
  match src with
  | None => (pguint32_Status Null, None)
  | Some s =>
    match strconv.ParseUint s 10 32 with
    | (n, None) => ({| Uint := uint32 n; status := Present |}, None)
    | (_, Some err) => (dst, Some err)
    end
  end.

(** [func (dst *pguint32) DecodeBinary(src []byte) error] *)
Definition DecodeBinary (dst : pguint32) (src : option (list byte))
  : pguint32 * option error :=
  match src with
  | None => (pguint32_Status Null, None)
  | Some s =>
    if negb (len s =? 4) then
      (dst, Some (errorString
                    ("invalid length: "
                       ++ fmt.str (strconv.FormatInt (len s) 10))))
    else
      match BigEndian.Uint32 s with
      | Some n => ({| Uint := n; status := Present |}, None)
      | None => (dst, Some (runtimeError "index out of range"))
      end
  end.

(** [func (src pguint32) EncodeText(w io.Writer) (bool, error)] *)
Definition EncodeText `{Writer W} (src : pguint32) (w : W)
  : W * (bool * option error) :=
  match status src with
  | Null => (w, (true, None))
  | Undefined => (w, (false, Some errUndefined))
  | Present =>
    let '(w', (_, err)) :=
      io.WriteString w (strconv.FormatUint (Uint src mod 2 ^ 64) 10) in
    (w', (false, err))
  end.

(** [func (src pguint32) EncodeBinary(w io.Writer) (bool, error)] *)
Definition EncodeBinary `{Writer W} (src : pguint32) (w : W)
  : W * (bool * option error) :=
  match status src with
  | Null => (w, (true, None))
  | Undefined => (w, (false, Some errUndefined))
  | Present =>
    let '(w', (_, err)) := pgio.WriteUint32 w (Uint src) in
    (w', (false, err))
  end.

(** *** The codec contract in the words of the specification *)

(** "exactly 4 bytes, big-endian, unsigned": the value of four bytes. *)
Definition big_endian_value (b0 b1 b2 b3 : byte) : Z :=
  byte_to_Z b0 * 2 ^ 24 + byte_to_Z b1 * 2 ^ 16
  + byte_to_Z b2 * 2 ^ 8 + byte_to_Z b3.

Definition is_decimal_digit (d : byte) : bool :=
  (48 <=? byte_to_Z d) && (byte_to_Z d <=? 57).

(** The number a string of decimal digits denotes, most significant digit
    first; leading zeros do not change it. *)
Definition dec_step (a : Z) (d : byte) : Z := 10 * a + (byte_to_Z d - 48).

Definition decimal_value (s : list byte) : Z := fold_left dec_step s 0.

(** The constants [ParseUint] computes for base 10 and bit size 32. *)
Definition cutoff10 : Z := strconv.maxUint64 / 10 + 1.
Definition maxUint32 : Z := 2 ^ 32 - 1.

(** "unsigned base-10 decimal digits (leading zeros permitted, no sign)
    denoting a value that fits in 32 bits". *)
Definition decimal_uint32 (s : list byte) : Prop :=
  s <> [] /\ forallb is_decimal_digit s = true /\ decimal_value s < 2 ^ 32.

(** The canonical text form: decimal digits without a leading zero, or the
    single digit 0. *)
Definition canonical_decimal (s : list byte) : Prop :=
  match s with
  | [] => False
  | d :: rest => d <> x30 \/ rest = []
  end.

(** "names the offending source type": the name of the type occurs in the
    message. *)
Fixpoint prefix_of (p s : string) : bool :=
  match p, s with
  | EmptyString, _ => true
  | String a p', String b s' => if Ascii.eqb a b then prefix_of p' s' else false
  | String _ _, EmptyString => false
  end.

Fixpoint occurs_in (p s : string) : bool :=
  prefix_of p s
  || match s with
     | EmptyString => false
     | String _ s' => occurs_in p s'
     end.

End pgtype.

(** ** pgx: the batch pipeline controller

    Modelled from the spec: batch.go ([Batch], [BeginBatch], [Queue], [Send],
    [ExecResults], [QueryResults], [Close]), the [Rows] of query.go, the
    [Conn] with [IsAlive] and the server are not among the sources; only
    batch_test.go is. The controller below follows sections 4.3, 4.4, 5, 6
    and 7 of the specification: statements are queued, sent as one command
    stream, and their results are read back in queue order from the stream
    of server messages; a statement that fails makes the server skip the
    statements after it up to the synchronisation marker; a cancellation
    seen by an accessor is fatal to the connection, a server error is not.
    In one point the specification and batch_test.go disagree, and the test
    is followed there and only there: [TestConnBeginBatchQueryError]
    requires the connection to be dead after [Close] when the rows of a
    statement met a server error (see [Close] below). The tests themselves
    are embedded from batch_test.go and run on the controller. *)

Module pgx.

Definition BinaryFormatCode : Z := 1.
Definition TextFormatCode : Z := 0.

(** One queued statement: the arguments of [Queue]. *)
Record batchItem := mk_batchItem {
  query : string;
  arguments : list GoValue;
  parameterOIDs : list Z;
  resultFormatCodes : list Z
}.

(** The protocol messages the transport delivers: row data,
    command-complete, error, skipped, ready-for-query. *)
Inductive Message :=
| DataRow (values : list Z)
| CommandComplete (rowsAffected : Z)
| ErrorResponse (Code : string)
| Skipped
| ReadyForQuery.

(** What the server makes of one statement: rows and a completion, or rows
    and then an error. *)
Inductive Result :=
| Complete (rows : list (list Z)) (rowsAffected : Z)
| Failed (rows : list (list Z)) (Code : string).

(** Modelled from the spec: the server is not among the sources. Its
    response stream to a pipeline (section 4.4, pipelining and error
    semantics): after the first failure every remaining statement is
    reported as skipped up to the synchronisation marker. *)
Fixpoint respond (rs : list Result) : list Message :=
  match rs with
  | [] => [ReadyForQuery]
  | Complete rows n :: rs' => map DataRow rows ++ CommandComplete n :: respond rs'
  | Failed rows code :: rs' =>
    map DataRow rows ++ ErrorResponse code
        :: map (fun _ => Skipped) rs' ++ [ReadyForQuery]
  end.

Record Conn := mk_Conn {
  server : batchItem -> Result;
  alive : bool;
  inbound : list Message;
  pendingReadyForQuery : bool
}.

(** The batch: its statements, the number of results handed out, whether it
    was sent, the error it remembers (the first server error, or the fatal
    error that ended it), and whether the rows of one of its statements
    ended with a server error. *)
Record Batch := mk_Batch {
  items : list batchItem;
  resultsRead : nat;
  sent : bool;
  err : option error;
  rowsFailed : bool
}.

Record Rows := mk_Rows {
  rows_open : bool;
  rows_err : option error;
  values : list Z
}.

(** The connection, the cancellation token handed to [Send], the batch and
    its single active [Rows]. *)
Record World := mk_World {
  conn : Conn;
  ctx_done : bool;
  batch : Batch;
  rows : Rows
}.

Definition set_conn (c : Conn) (w : World) : World :=
  {| conn := c; ctx_done := ctx_done w; batch := batch w; rows := rows w |}.
Definition set_batch (b : Batch) (w : World) : World :=
  {| conn := conn w; ctx_done := ctx_done w; batch := b; rows := rows w |}.
Definition set_rows (r : Rows) (w : World) : World :=
  {| conn := conn w; ctx_done := ctx_done w; batch := batch w; rows := r |}.
Definition set_inbound (ms : list Message) (w : World) : World :=
  set_conn {| server := server (conn w); alive := alive (conn w);
              inbound := ms;
              pendingReadyForQuery := pendingReadyForQuery (conn w) |} w.
Definition set_err (e : option error) (w : World) : World :=
  set_batch {| items := items (batch w);
               resultsRead := resultsRead (batch w);
               sent := sent (batch w); err := e;
               rowsFailed := rowsFailed (batch w) |} w.
Definition set_rowsFailed (w : World) : World :=
  set_batch {| items := items (batch w);
               resultsRead := resultsRead (batch w);
               sent := sent (batch w); err := err (batch w);
               rowsFailed := true |} w.

(** The state monad of the calls on a connection. *)
Definition M (A : Type) : Type := World -> A * World.
Definition ret {A} (a : A) : M A := fun w => (a, w).
Definition bind {A B} (m : M A) (k : A -> M B) : M B :=
  fun w => let (a, w') := m w in k a w'.

Notation "x <- m ;; k" := (bind m (fun x => k))
  (at level 100, m at next level, right associativity).
Notation "m ;;; k" := (bind m (fun _ => k))
  (at level 100, right associativity).

(** Modelled from the spec: which errors are fatal to the connection
    (section 7): a cancellation, a desynchronised stream and the
    dead-connection condition. A server error is not: it "does not corrupt
    the connection by itself". *)
Definition fatal (e : error) : bool :=
  match e with
  | Canceled | ErrDeadConn | ErrProtocolDesync => true
  | _ => false
  end.

(** The fatal error a batch remembers, if it remembers one. *)
Definition sticky_fatal (e : option error) : option error :=
  match e with
  | Some e' => if fatal e' then Some e' else None
  | None => None
  end.

(** Modelled from the spec: [conn.die] of the missing connection; the
    liveness flag is cleared (section 6, [isAlive]). *)
Definition conn_die (w : World) : World :=
  set_conn {| server := server (conn w); alive := false;
              inbound := inbound (conn w);
              pendingReadyForQuery := pendingReadyForQuery (conn w) |} w.

(** Modelled from the spec: [batch.die(err)] of the missing batch.go; the
    connection dies and the batch remembers the first fatal error
    (section 7). *)
Definition die (e : error) (w : World) : World :=
  conn_die (set_err (match sticky_fatal (err (batch w)) with
                     | Some e' => Some e'
                     | None => Some e
                     end) w).

(** Modelled from the spec: the batch remembers the first server error, which
    [Close] returns (section 4.4). *)
Definition note_server_error (e : error) (w : World) : World :=
  match e, err (batch w) with
  | PgError _, None => set_err (Some e) w
  | _, _ => w
  end.

Definition raise (e : error) (w : World) : World :=
  if fatal e then die e w else note_server_error e w.

(** Modelled from the spec: [receiveNextMessage(cancellationToken)] of the
    transport (section 6) fails on a dead connection and honours the
    token. *)
Definition read_error (w : World) : option error :=
  if negb (alive (conn w)) then Some ErrDeadConn
  else if ctx_done w then Some Canceled
  else None.

(** Modelled from the spec: reading to the end of the current statement's
    result (sections 4.4 and 6); rows are discarded up to the completion,
    the error or the skipped status. *)
Fixpoint readCommandComplete (ms : list Message)
  : (Z + error) * list Message :=
  match ms with
  | [] => (inr ErrProtocolDesync, [])
  | DataRow _ :: ms' => readCommandComplete ms'
  | CommandComplete n :: ms' => (inl n, ms')
  | ErrorResponse code :: ms' => (inr (PgError code), ms')
  | Skipped :: ms' => (inr ErrSkipped, ms')
  | ReadyForQuery :: ms' => (inr ErrProtocolDesync, ReadyForQuery :: ms')
  end.

Definition new_Rows : Rows :=
  {| rows_open := true; rows_err := None; values := [] |}.

(** Modelled from the spec: [rows.fatal(err)] of the missing query.go; the
    error sticks (section 4.3, [Err]), the rows are closed, the batch notes
    that rows of it ended with a server error, and it dies when the error is
    fatal. *)
Definition rows_fatal (e : error) (w : World) : World :=
  let w1 := set_rows {| rows_open := false;
                        rows_err := match rows_err (rows w) with
                                    | Some e' => Some e'
                                    | None => Some e
                                    end;
                        values := values (rows w) |} w in
  raise e (match e with
           | PgError _ => set_rowsFailed w1
           | _ => w1
           end).

(** Modelled from the spec: [rows.Close()] of the missing query.go
    (section 4.3); what is left of the statement's rows is read and
    discarded, and closing closed rows does nothing. *)
Definition RowsClose : M unit := fun w =>
  if rows_open (rows w) then
    match read_error w with
    | Some e => (tt, rows_fatal e w)
    | None =>
      match readCommandComplete (inbound (conn w)) with
      | (inl _, ms) =>
        (tt, set_rows {| rows_open := false; rows_err := rows_err (rows w);
                         values := values (rows w) |} (set_inbound ms w))
      | (inr e, ms) => (tt, rows_fatal e (set_inbound ms w))
      end
    end
  else (tt, w).

(** Modelled from the spec: [rows.Next()] of the missing query.go
    (section 4.3). *)
Definition Next : M bool := fun w =>
  if rows_open (rows w) then
    match read_error w with
    | Some e => (false, rows_fatal e w)
    | None =>
      match inbound (conn w) with
      | DataRow vs :: ms =>
        (true, set_rows {| rows_open := true; rows_err := rows_err (rows w);
                           values := vs |} (set_inbound ms w))
      | CommandComplete _ :: ms =>
        (false, set_rows {| rows_open := false; rows_err := rows_err (rows w);
                            values := values (rows w) |} (set_inbound ms w))
      | ErrorResponse code :: ms =>
        (false, rows_fatal (PgError code) (set_inbound ms w))
      | Skipped :: ms => (false, rows_fatal ErrSkipped (set_inbound ms w))
      | ReadyForQuery :: _ | [] => (false, rows_fatal ErrProtocolDesync w)
      end
    end
  else (false, w).

(** Modelled from the spec: [rows.Scan(dest...)] of the missing query.go
    with [arity] destinations (section 4.3): the columns of the current
    row, or an error on an arity mismatch. *)
Definition Scan (arity : nat) : M (list Z * option error) := fun w =>
  if rows_open (rows w) then
    if decide (length (values (rows w)) = arity)
    then ((values (rows w), None), w)
    else (([], Some (errorString "Scan received wrong number of arguments")), w)
  else (([], Some (default (errorString "no row") (rows_err (rows w)))), w).

(** Modelled from the spec: [rows.Err()] of the missing query.go. *)
Definition RowsErr : M (option error) := fun w => (rows_err (rows w), w).

(** Modelled from the spec: [conn.IsAlive()] of the missing conn.go
    (section 6, [isAlive]). *)
Definition IsAlive : M bool := fun w => (alive (conn w), w).

(** [cancelFn()] of the context handed to [Send]. *)
Definition cancelFn : M unit := fun w =>
  (tt, {| conn := conn w; ctx_done := true; batch := batch w; rows := rows w |}).

(** [context.WithCancel(context.Background())]: a fresh token. *)
Definition WithCancel : M unit := fun w =>
  (tt, {| conn := conn w; ctx_done := false; batch := batch w; rows := rows w |}).

(** Modelled from the spec: [conn.BeginBatch()] of the missing batch.go. *)
Definition BeginBatch : M unit := fun w =>
  (tt, set_rows {| rows_open := false; rows_err := None; values := [] |}
         (set_batch {| items := []; resultsRead := 0; sent := false;
                       err := None; rowsFailed := false |} w)).

(** Modelled from the spec: [batch.Queue(query, arguments, parameterOIDs,
    resultFormatCodes)] of the missing batch.go (section 4.4); appends while
    the batch is being built. *)
Definition Queue (q : string) (args : list GoValue) (oids codes : list Z)
  : M unit := fun w =>
  if sent (batch w) then (tt, w)
  else (tt, set_batch
              {| items := items (batch w) ++ [mk_batchItem q args oids codes];
                 resultsRead := resultsRead (batch w);
                 sent := false; err := err (batch w);
                 rowsFailed := rowsFailed (batch w) |} w).

(** Modelled from the spec: [batch.Send(ctx, nil)] of the missing batch.go
    (sections 4.4 and 5); the whole pipeline is transmitted and the server
    answers it. A token cancelled before the transmission makes the batch
    unusable and leaves the connection alone. *)
Definition Send : M (option error) := fun w =>
  match err (batch w) with
  | Some e => (Some e, w)
  | None =>
    if sent (batch w) then (Some ErrNoResult, w)
    else if ctx_done w then (Some Canceled, set_err (Some Canceled) w)
    else if alive (conn w) then
      (None,
       set_batch {| items := items (batch w);
                    resultsRead := resultsRead (batch w);
                    sent := true; err := None;
                    rowsFailed := rowsFailed (batch w) |}
         (set_conn {| server := server (conn w); alive := true;
                      inbound := inbound (conn w)
                                 ++ respond (map (server (conn w))
                                               (items (batch w)));
                      pendingReadyForQuery := true |} w))
    else (Some ErrDeadConn, w)
  end.

(** Modelled from the spec: the checks every result accessor starts with
    (sections 4.4, 5 and 7): the fatal error the batch remembers, that the
    batch was sent, the cancellation token, and that a result is pending. *)
Definition accessor_guard (w : World) : option error * World :=
  match sticky_fatal (err (batch w)) with
  | Some e => (Some e, w)
  | None =>
    if negb (sent (batch w)) then (Some ErrNoResult, w)
    else if ctx_done w then (Some Canceled, die Canceled w)
    else if (length (items (batch w)) <=? resultsRead (batch w))%nat
    then (Some ErrNoResult, w)
    else (None, w)
  end.

Definition advance (w : World) : World :=
  set_batch {| items := items (batch w);
               resultsRead := S (resultsRead (batch w));
               sent := sent (batch w); err := err (batch w);
               rowsFailed := rowsFailed (batch w) |} w.

(** Modelled from the spec: [batch.ExecResults()] of the missing batch.go
    (section 4.4). Rows left open by the caller are closed first; the
    statement's completion is awaited; a server error is returned and
    remembered, and the statements after it report that they were skipped. *)
Definition ExecResults : M (Z * option error) := fun w =>
  match accessor_guard w with
  | (Some e, w1) => ((0, Some e), w1)
  | (None, w1) =>
    let (_, w2) := RowsClose w1 in
    match sticky_fatal (err (batch w2)) with
    | Some e => ((0, Some e), w2)
    | None =>
      let w3 := advance w2 in
      match read_error w3 with
      | Some e => ((0, Some e), raise e w3)
      | None =>
        match readCommandComplete (inbound (conn w3)) with
        | (inl n, ms) => ((n, None), set_inbound ms w3)
        | (inr e, ms) => ((0, Some e), raise e (set_inbound ms w3))
        end
      end
    end
  end.

(** Modelled from the spec: [batch.QueryResults()] of the missing batch.go
    (section 4.4); the rows are bound to the statement and fetched by
    [Next]. *)
Definition QueryResults : M (option error) := fun w =>
  match accessor_guard w with
  | (Some e, w1) => (Some e, rows_fatal e (set_rows new_Rows w1))
  | (None, w1) =>
    let (_, w2) := RowsClose w1 in
    match sticky_fatal (err (batch w2)) with
    | Some e => (Some e, rows_fatal e (set_rows new_Rows w2))
    | None => (None, set_rows new_Rows (advance w2))
    end
  end.

(** Modelled from the spec: the loop of [Close] over the statements not yet
    consumed (section 4.4): every remaining result is read and discarded,
    a skipped one too; only a fatal error stops the loop. *)
Fixpoint drain (n : nat) : M (option error) :=
  match n with
  | O => ret None
  | S n' =>
    r <- ExecResults ;;
    match sticky_fatal (snd r) with
    | Some e => ret (Some e)
    | None => drain n'
    end
  end.

(** Modelled from the spec: reading the acknowledgement of the
    synchronisation marker at the end of the pipeline. *)
Definition ensureConnectionReadyForQuery : M (option error) := fun w =>
  if pendingReadyForQuery (conn w) then
    match read_error w with
    | Some e => (Some e, die e w)
    | None =>
      match inbound (conn w) with
      | ReadyForQuery :: ms =>
        (None, set_conn {| server := server (conn w); alive := alive (conn w);
                           inbound := ms; pendingReadyForQuery := false |} w)
      | _ => (Some ErrProtocolDesync, die ErrProtocolDesync w)
      end
    end
  else (None, w).

(** Modelled from the spec: [batch.Close()] of the missing batch.go
    (section 4.4). A batch that died returns its fatal error. Otherwise
    every result not yet consumed is read and discarded, up to the
    acknowledgement of the synchronisation marker, and the first server
    error of the batch is returned. One step does not come from the
    specification but from batch_test.go: [TestConnBeginBatchQueryError]
    requires [IsAlive] to be false after [Close] when the rows of a
    statement met a server error. The sources do not say at which call the
    connection dies; here it is not handed back alive at the end of
    [Close], after the draining the specification asks for. *)
Definition Close : M (option error) := fun w =>
  match sticky_fatal (err (batch w)) with
  | Some e => (Some e, w)
  | None =>
    let (_, w1) := RowsClose w in
    match sticky_fatal (err (batch w1)) with
    | Some e => (Some e, w1)
    | None =>
      match drain (length (items (batch w1)) - resultsRead (batch w1)) w1 with
      | (Some e, w2) => (Some e, w2)
      | (None, w2) =>
        match ensureConnectionReadyForQuery w2 with
        | (Some e, w3) => (Some e, w3)
        | (None, w3) =>
          (err (batch w3),
           if rowsFailed (batch w3) then conn_die w3 else w3)
        end
      end
    end
  end.

(** *** The tests of batch_test.go *)

(** What [t.Error], [t.Errorf] and [t.Fatal] record. *)
Inductive report :=
| t_Error (e : option error)
| t_Errorf (format : string) (got : option error) (want : string)
| t_ErrorfInt (format : string) (got want : Z)
| t_ErrorMsg (msg : string)
| t_Fatal (e : option error).

(** Modelled from the spec: [mustConnect] of the missing test helpers; a
    live connection to a server, with nothing pending. *)
Definition mustConnect (srv : batchItem -> Result) : World :=
  {| conn := {| server := srv; alive := true; inbound := [];
                pendingReadyForQuery := false |};
     ctx_done := false;
     batch := {| items := []; resultsRead := 0; sent := false; err := None;
                 rowsFailed := false |};
     rows := {| rows_open := false; rows_err := None; values := [] |} |}.

Definition is_PgError (code : string) (e : option error) : bool :=
  match e with
  | Some (PgError c) => String.eqb c code
  | _ => false
  end.

Definition is_Canceled (e : option error) : bool :=
  match e with
  | Some Canceled => true
  | _ => false
  end.

(** [for i := 0; rows.Next(); i++ { var n int; rows.Scan(&n); ... }]: every
    turn takes a message off the stream, whose length bounds the loop. *)
Fixpoint scan_loop (fuel : nat) (i : Z) (t : list report) : M (list report) :=
  match fuel with
  | O => ret t
  | S fuel' =>
    more <- Next ;;
    if more then
      r <- Scan 1 ;;
      let t1 := match snd r with
                | Some e => t ++ [t_Error (Some e)]
                | None => t
                end in
      let n := hd 0 (fst r) in
      let t2 := if negb (n =? i) then t1 ++ [t_ErrorfInt "n => %v, want %v" n i]
                else t1 in
      scan_loop fuel' (i + 1) t2
    else ret t
  end.

Definition scan_all (i : Z) (t : list report) : M (list report) := fun w =>
  scan_loop (S (length (inbound (conn w)))) i t w.

(** [TestConnBeginBatchQueryError] *)
Definition TestConnBeginBatchQueryError : M (list report) :=
  BeginBatch ;;;
  Queue "select n from generate_series(0,5) n where 100/(5-n) > 0"
        [] [] [BinaryFormatCode] ;;;
  Queue "select n from generate_series(0,5) n" [] [] [BinaryFormatCode] ;;;
  e <- Send ;;
  match e with
  | Some _ => ret [t_Fatal e]
  | None =>
    e <- QueryResults ;;
    let t := match e with Some _ => [t_Error e] | None => [] end in
    t <- scan_all 0 t ;;
    e <- RowsErr ;;
    let t := if is_PgError "22012" e then t
             else t ++ [t_Errorf "rows.Err() => %v, want error code %v" e "22012"] in
    e <- Close ;;
    let t := if is_PgError "22012" e then t
             else t ++ [t_Errorf "rows.Err() => %v, want error code %v" e "22012"] in
    a <- IsAlive ;;
    ret (if a then t ++ [t_ErrorMsg "conn should be dead, but was alive"] else t)
  end.

(** [TestConnBeginBatchContextCancelBeforeExecResults] *)
Definition TestConnBeginBatchContextCancelBeforeExecResults : M (list report) :=
  BeginBatch ;;;
  Queue "insert into ledger(description, amount) values($1, $2)"
        [VString (bytes_of "q1"); VInt 1] [1043; 23] [] ;;;
  Queue "select pg_sleep(2)" [] [] [] ;;;
  WithCancel ;;;
  e <- Send ;;
  match e with
  | Some _ => ret [t_Fatal e]
  | None =>
    cancelFn ;;;
    r <- ExecResults ;;
    let t := if is_Canceled (snd r) then []
             else [t_Errorf "err => %v, want %v" (snd r) "context.Canceled"] in
    a <- IsAlive ;;
    ret (if a then t ++ [t_ErrorMsg "conn should be dead, but was alive"] else t)
  end.

(** [TestConnBeginBatchContextCancelBeforeQueryResults] *)
Definition TestConnBeginBatchContextCancelBeforeQueryResults : M (list report) :=
  BeginBatch ;;;
  Queue "select pg_sleep(2)" [] [] [] ;;;
  Queue "select pg_sleep(2)" [] [] [] ;;;
  WithCancel ;;;
  e <- Send ;;
  match e with
  | Some _ => ret [t_Fatal e]
  | None =>
    cancelFn ;;;
    e <- QueryResults ;;
    let t := if is_Canceled e then []
             else [t_Errorf "err => %v, want %v" e "context.Canceled"] in
    a <- IsAlive ;;
    ret (if a then t ++ [t_ErrorMsg "conn should be dead, but was alive"] else t)
  end.

(** [TestConnBeginBatchContextCancelBeforeFinish] *)
Definition TestConnBeginBatchContextCancelBeforeFinish : M (list report) :=
  BeginBatch ;;;
  Queue "select pg_sleep(2)" [] [] [] ;;;
  Queue "select pg_sleep(2)" [] [] [] ;;;
  WithCancel ;;;
  e <- Send ;;
  match e with
  | Some _ => ret [t_Fatal e]
  | None =>
    cancelFn ;;;
    e <- Close ;;
    let t := if is_Canceled e then []
             else [t_Errorf "err => %v, want %v" e "context.Canceled"] in
    a <- IsAlive ;;
    ret (if a then t ++ [t_ErrorMsg "conn should be dead, but was alive"] else t)
  end.

(** [for i := 0; i < 3; i++ { if !rows.Next() {...}; rows.Scan(&n); ... }] *)
Fixpoint scan_count (count : nat) (i : Z) (t : list report) : M (list report) :=
  match count with
  | O => ret t
  | S count' =>
    more <- Next ;;
    let t0 := if more then t
              else t ++ [t_ErrorMsg "expected a row to be available"] in
    r <- Scan 1 ;;
    let t1 := match snd r with
              | Some e => t0 ++ [t_Error (Some e)]
              | None => t0
              end in
    let n := hd 0 (fst r) in
    let t2 := if negb (n =? i) then t1 ++ [t_ErrorfInt "n => %v, want %v" n i]
              else t1 in
    scan_count count' (i + 1) t2
  end.

(** Modelled from the spec: [ensureConnValid] of the missing test helpers
    runs a query on the connection; here the connection must be alive with
    nothing left unread. *)
Definition ensureConnValid (t : list report) : M (list report) := fun w =>
  (if alive (conn w) && negb (pendingReadyForQuery (conn w))
      && (length (inbound (conn w)) =? 0)%nat
   then t else t ++ [t_ErrorMsg "connection is not valid"], w).

(** [TestConnBeginBatchCloseRowsPartiallyRead] *)
Definition TestConnBeginBatchCloseRowsPartiallyRead : M (list report) :=
  BeginBatch ;;;
  Queue "select n from generate_series(0,5) n" [] [] [BinaryFormatCode] ;;;
  Queue "select n from generate_series(0,5) n" [] [] [BinaryFormatCode] ;;;
  e <- Send ;;
  match e with
  | Some _ => ret [t_Fatal e]
  | None =>
    e <- QueryResults ;;
    let t := match e with Some _ => [t_Error e] | None => [] end in
    t <- scan_count 3 0 t ;;
    RowsClose ;;;
    e <- QueryResults ;;
    let t := match e with Some _ => t ++ [t_Error e] | None => t end in
    t <- scan_all 0 t ;;
    e <- RowsErr ;;
    let t := match e with Some _ => t ++ [t_Error e] | None => t end in
    e <- Close ;;
    match e with
    | Some _ => ret (t ++ [t_Fatal e])
    | None => ensureConnValid t
    end
  end.

(** The server of the tests: what PostgreSQL answers to their statements.
    The first query divides by zero at n = 5, after the rows 0 to 4, with
    the error code 22012. *)
Definition postgres (it : batchItem) : Result :=
  if String.eqb (query it)
       "select n from generate_series(0,5) n where 100/(5-n) > 0"
  then Failed [[0]; [1]; [2]; [3]; [4]] "22012"
  else if String.eqb (query it) "select n from generate_series(0,5) n"
  then Complete [[0]; [1]; [2]; [3]; [4]; [5]] 6
  else if String.eqb (query it) "select pg_sleep(2)"
  then Complete [[0]] 1
  else Complete [] 1.

(** *** The calls a caller can make, for statements over every use *)

Inductive Op :=
| OpBeginBatch
| OpQueue (it : batchItem)
| OpWithCancel
| OpCancel
| OpSend
| OpExecResults
| OpQueryResults
| OpNext
| OpScan (arity : nat)
| OpRowsErr
| OpRowsClose
| OpClose
| OpIsAlive.

Definition step (o : Op) (w : World) : World :=
  match o with
  | OpBeginBatch => snd (BeginBatch w)
  | OpQueue it =>
    snd (Queue (query it) (arguments it) (parameterOIDs it)
           (resultFormatCodes it) w)
  | OpWithCancel => snd (WithCancel w)
  | OpCancel => snd (cancelFn w)
  | OpSend => snd (Send w)
  | OpExecResults => snd (ExecResults w)
  | OpQueryResults => snd (QueryResults w)
  | OpNext => snd (Next w)
  | OpScan n => snd (Scan n w)
  | OpRowsErr => snd (RowsErr w)
  | OpRowsClose => snd (RowsClose w)
  | OpClose => snd (Close w)
  | OpIsAlive => snd (IsAlive w)
  end.

Definition run (ops : list Op) (w : World) : World :=
  fold_left (fun w o => step o w) ops w.

(** How a caller consumes one statement's result: with [ExecResults], or
    with [QueryResults], some calls of [Next] and [rows.Close()]. *)
Inductive Access := ByExec | ByQuery (nexts : nat).

Definition consume (a : Access) : list Op :=
  match a with
  | ByExec => [OpExecResults]
  | ByQuery n => OpQueryResults :: repeat OpNext n ++ [OpRowsClose]
  end.

(** A batch with the statements [its] queued on a fresh connection. *)
Definition queued (srv : batchItem -> Result) (its : list batchItem) : World :=
  run (map OpQueue its) (snd (BeginBatch (mustConnect srv))).

End pgx.

(** *** The state between two results *)

Module batch_state.
Import pgx.

(** [j] statements of the sent batch [its] have been consumed and nothing went
    wrong: the stream holds the answers to the statements from [j] on. *)
Definition synced (srv : batchItem -> Result) (its : list batchItem)
  (j : nat) (w : World) : Prop :=
  conn w = {| server := srv; alive := true;
              inbound := respond (map srv (drop j its));
              pendingReadyForQuery := true |}
  /\ ctx_done w = false
  /\ batch w = {| items := its; resultsRead := j; sent := true; err := None;
                  rowsFailed := false |}
  /\ rows_open (rows w) = false.

(** The rows of statement [j] are open and [ms] is what the stream holds. *)
Definition reading (srv : batchItem -> Result) (its : list batchItem)
  (j : nat) (ms : list Message) (w : World) : Prop :=
  conn w = {| server := srv; alive := true; inbound := ms;
              pendingReadyForQuery := true |}
  /\ ctx_done w = false
  /\ batch w = {| items := its; resultsRead := S j; sent := true; err := None;
                  rowsFailed := false |}
  /\ rows_open (rows w) = true.



End batch_state.
(** * Properties of the codec *)

(** ** Bytes and unsigned arithmetic *)

Lemma byte_to_Z_range (b : byte) : 0 <= byte_to_Z b < 256.
Proof.
  unfold byte_to_Z. pose proof (Byte.to_N_bounded b). lia.
Qed.

Lemma byte_to_Z_to_byte (z : Z) : byte_to_Z (Z_to_byte z) = z mod 256.
Proof.
  unfold byte_to_Z, Z_to_byte.
  pose proof (Z.mod_pos_bound z 256 eq_refl) as Hr.
  destruct (Byte.of_N (Z.to_N (z mod 256))) as [b|] eqn:E.
  - simpl. apply Byte.to_of_N in E. rewrite E. lia.
  - apply Byte.of_N_None_iff in E. lia.
Qed.

Lemma byte_to_Z_inj (a b : byte) : byte_to_Z a = byte_to_Z b -> a = b.
Proof.
  unfold byte_to_Z. intros H. apply N2Z.inj in H.
  pose proof (Byte.of_to_N a) as Ha. pose proof (Byte.of_to_N b) as Hb.
  rewrite H in Ha. congruence.
Qed.

Lemma Z_to_byte_to_Z (b : byte) : Z_to_byte (byte_to_Z b) = b.
Proof.
  apply byte_to_Z_inj. rewrite byte_to_Z_to_byte.
  apply Z.mod_small, byte_to_Z_range.
Qed.

(** Bits that do not overlap add up. *)
Lemma lor_shiftl_add (hi lo k : Z) :
  0 <= k -> 0 <= lo < 2 ^ k -> Z.lor lo (Z.shiftl hi k) = lo + hi * 2 ^ k.
Proof.
  intros Hk Hlo. symmetry. rewrite <- Z.shiftl_mul_pow2 by lia.
  apply Z.add_nocarry_lor. apply Z.bits_inj'. intros i Hi.
  rewrite Z.land_spec, Z.bits_0.
  destruct (Z.lt_ge_cases i k) as [Hlt|Hge].
  - rewrite (Z.shiftl_spec_low hi k i) by lia. apply andb_false_r.
  - assert (Z.testbit lo i = false) as ->; [|reflexivity].
    destruct (Z.eq_dec lo 0) as [->|Hnz]; [apply Z.bits_0|].
    apply Z.bits_above_log2; [lia|].
    apply Z.log2_lt_pow2; [lia|].
    apply Z.lt_le_trans with (2 ^ k); [lia|].
    apply Z.pow_le_mono_r; lia.
Qed.

Lemma Uint32_big_endian (b0 b1 b2 b3 : byte) :
  BigEndian.Uint32 [b0; b1; b2; b3] = Some (pgtype.big_endian_value b0 b1 b2 b3).
Proof.
  unfold BigEndian.Uint32, pgtype.big_endian_value. f_equal.
  pose proof (byte_to_Z_range b0). pose proof (byte_to_Z_range b1).
  pose proof (byte_to_Z_range b2). pose proof (byte_to_Z_range b3).
  rewrite (lor_shiftl_add (byte_to_Z b2) (byte_to_Z b3) 8) by lia.
  rewrite (lor_shiftl_add (byte_to_Z b1) _ 16) by lia.
  rewrite (lor_shiftl_add (byte_to_Z b0) _ 24) by lia.
  lia.
Qed.

Lemma big_endian_value_range (b0 b1 b2 b3 : byte) :
  0 <= pgtype.big_endian_value b0 b1 b2 b3 < 2 ^ 32.
Proof.
  unfold pgtype.big_endian_value.
  pose proof (byte_to_Z_range b0). pose proof (byte_to_Z_range b1).
  pose proof (byte_to_Z_range b2). pose proof (byte_to_Z_range b3).
  lia.
Qed.

Lemma Uint32_PutUint32 (v : Z) :
  0 <= v < 2 ^ 32 -> BigEndian.Uint32 (BigEndian.PutUint32 v) = Some v.
Proof.
  intros Hv. unfold BigEndian.PutUint32. rewrite Uint32_big_endian. f_equal.
  unfold pgtype.big_endian_value. rewrite !byte_to_Z_to_byte.
  rewrite !Z.shiftr_div_pow2 by lia.
  change (2 ^ 24) with 16777216. change (2 ^ 16) with 65536.
  change (2 ^ 8) with 256. change (2 ^ 32) with 4294967296 in Hv.
  pose proof (Z.div_mod v 16777216 ltac:(lia)).
  pose proof (Z.mod_pos_bound v 16777216 ltac:(lia)).
  pose proof (Z.div_mod v 65536 ltac:(lia)).
  pose proof (Z.mod_pos_bound v 65536 ltac:(lia)).
  pose proof (Z.div_mod v 256 ltac:(lia)).
  pose proof (Z.mod_pos_bound v 256 ltac:(lia)).
  pose proof (Z.div_mod (v / 16777216) 256 ltac:(lia)).
  pose proof (Z.mod_pos_bound (v / 16777216) 256 ltac:(lia)).
  pose proof (Z.div_mod (v / 65536) 256 ltac:(lia)).
  pose proof (Z.mod_pos_bound (v / 65536) 256 ltac:(lia)).
  pose proof (Z.div_mod (v / 256) 256 ltac:(lia)).
  pose proof (Z.mod_pos_bound (v / 256) 256 ltac:(lia)).
  assert (v / 65536 / 256 = v / 16777216) by (rewrite Z.div_div by lia; reflexivity).
  assert (v / 256 / 256 = v / 65536) by (rewrite Z.div_div by lia; reflexivity).
  assert (0 <= v / 16777216 < 256)
    by (split; [apply Z.div_pos; lia | apply Z.div_lt_upper_bound; lia]).
  lia.
Qed.

(** ** strconv: parsing and formatting decimal numbers *)

Lemma geb_lt (a b : Z) : a < b -> (a >=? b) = false.
Proof. intros H. rewrite Z.geb_leb. apply Z.leb_gt. exact H. Qed.

Lemma geb_ge (a b : Z) : b <= a -> (a >=? b) = true.
Proof. intros H. rewrite Z.geb_leb. apply Z.leb_le. exact H. Qed.

Lemma gtb_le (a b : Z) : a <= b -> (a >? b) = false.
Proof. intros H. rewrite Z.gtb_ltb. apply Z.ltb_ge. exact H. Qed.

Lemma gtb_gt (a b : Z) : b < a -> (a >? b) = true.
Proof. intros H. rewrite Z.gtb_ltb. apply Z.ltb_lt. exact H. Qed.

Lemma digit_val_decimal (d : byte) :
  pgtype.is_decimal_digit d = true ->
  strconv.digit_val d = Some (byte_to_Z d - 48) /\ 0 <= byte_to_Z d - 48 < 10.
Proof.
  unfold pgtype.is_decimal_digit, strconv.digit_val. intros H.
  rewrite H. apply andb_true_iff in H as [H1 H2]. split; [reflexivity|lia].
Qed.

Lemma digit_val_other (d : byte) :
  pgtype.is_decimal_digit d = false ->
  strconv.digit_val d = None \/
  exists v, strconv.digit_val d = Some v /\ 10 <= v < 36.
Proof.
  unfold pgtype.is_decimal_digit, strconv.digit_val. intros H. rewrite H.
  destruct ((97 <=? byte_to_Z d) && (byte_to_Z d <=? 122)) eqn:Hl.
  - right. eexists. split; [reflexivity|].
    apply andb_true_iff in Hl. lia.
  - destruct ((65 <=? byte_to_Z d) && (byte_to_Z d <=? 90)) eqn:Hu.
    + right. eexists. split; [reflexivity|].
      apply andb_true_iff in Hu. lia.
    + left. reflexivity.
Qed.

Lemma fold_dec_step_mono (s : list byte) :
  forall n, 0 <= n -> forallb pgtype.is_decimal_digit s = true ->
            n <= fold_left pgtype.dec_step s n.
Proof.
  induction s as [|d s IH]; intros n Hn Hd; simpl in *; [lia|].
  apply andb_true_iff in Hd as [Hd Hs].
  apply digit_val_decimal in Hd as [_ Hd].
  assert (n <= pgtype.dec_step n d) by (unfold pgtype.dec_step; lia).
  specialize (IH (pgtype.dec_step n d) ltac:(lia) Hs). lia.
Qed.

(** The loop of [ParseUint] in base 10 with a 32-bit bound: it ends without
    an error exactly on decimal digits whose value stays within 32 bits. *)
Lemma ParseUint_loop_spec (s : list byte) :
  forall n, 0 <= n <= pgtype.maxUint32 ->
    (forallb pgtype.is_decimal_digit s = true
     /\ fold_left pgtype.dec_step s n <= pgtype.maxUint32
     /\ strconv.ParseUint_loop 10 pgtype.cutoff10 pgtype.maxUint32 s n
        = (fold_left pgtype.dec_step s n, None))
    \/ (~ (forallb pgtype.is_decimal_digit s = true
           /\ fold_left pgtype.dec_step s n <= pgtype.maxUint32)
        /\ exists m e,
             strconv.ParseUint_loop 10 pgtype.cutoff10 pgtype.maxUint32 s n = (m, Some e)).
Proof.
  induction s as [|d s IH]; intros n Hn.
  - left. simpl. repeat split; lia.
  - cbn [strconv.ParseUint_loop forallb fold_left].
    destruct (pgtype.is_decimal_digit d) eqn:Hd.
    + destruct (digit_val_decimal d Hd) as [-> Hv].
      set (v := byte_to_Z d - 48) in *.
      assert (Hmax : pgtype.maxUint32 = 4294967295) by reflexivity.
      assert (Hcut : pgtype.cutoff10 = 1844674407370955162) by reflexivity.
      rewrite (Z.mod_small v) by lia. change (10 mod 256) with 10.
      rewrite (geb_lt v 10) by lia.
      rewrite (geb_lt n pgtype.cutoff10) by lia.
      unfold strconv.uint64.
      change (2 ^ 64) with 18446744073709551616.
      rewrite (Z.mod_small (n * 10)) by lia.
      rewrite (Z.mod_small (n * 10 + v)) by lia.
      rewrite (proj2 (Z.ltb_ge (n * 10 + v) (n * 10))) by lia.
      rewrite orb_false_l.
      assert (Hstep : pgtype.dec_step n d = n * 10 + v) by (unfold pgtype.dec_step, v; lia).
      rewrite Hstep.
      destruct (n * 10 + v >? pgtype.maxUint32) eqn:Hov.
      * right. rewrite Z.gtb_ltb in Hov. apply Z.ltb_lt in Hov.
        split; [|eauto].
        intros [Hs Hle]. rewrite andb_true_l in Hs.
        pose proof (fold_dec_step_mono s (n * 10 + v) ltac:(lia) Hs). lia.
      * assert (n * 10 + v <= pgtype.maxUint32)
          by (rewrite Z.gtb_ltb in Hov; apply Z.ltb_ge in Hov; lia).
        destruct (IH (n * 10 + v) ltac:(lia)) as [(Hs & Hle & Heq)|(Hno & Herr)].
        -- left. rewrite andb_true_l. auto.
        -- right. split; [|exact Herr]. rewrite andb_true_l. exact Hno.
    + right. split; [intros [Hs _]; discriminate|].
      destruct (digit_val_other d Hd) as [->|(v & -> & Hv)]; [eauto|].
      rewrite (Z.mod_small v) by lia. change (10 mod 256) with 10.
      rewrite (geb_ge v 10) by lia.
      eauto.
Qed.

Lemma decimal_value_fold (s : list byte) :
  pgtype.decimal_value s = fold_left pgtype.dec_step s 0.
Proof. reflexivity. Qed.

(** [ParseUint(s, 10, 32)] succeeds, with the value the digits denote,
    exactly on a non-empty string of decimal digits that fits in 32 bits. *)
Lemma ParseUint_decimal (s : list byte) :
  pgtype.decimal_uint32 s ->
  strconv.ParseUint s 10 32 = (pgtype.decimal_value s, None).
Proof.
  intros (Hne & Hd & Hlt). unfold strconv.ParseUint.
  destruct s as [|d s]; [congruence|].
  replace (len (d :: s) <? 1) with false
    by (symmetry; apply Z.ltb_ge; unfold len; simpl length; lia).
  change (strconv.maxUint64 / 10 + 1) with pgtype.cutoff10.
  change (2 ^ 32 - 1) with pgtype.maxUint32.
  rewrite decimal_value_fold in *.
  destruct (ParseUint_loop_spec (d :: s) 0 ltac:(unfold pgtype.maxUint32; lia))
    as [(_ & _ & ->)|(Hno & _)]; [reflexivity|].
  exfalso. apply Hno. split; [exact Hd|]. unfold pgtype.maxUint32. lia.
Qed.

Lemma ParseUint_not_decimal (s : list byte) :
  ~ pgtype.decimal_uint32 s ->
  exists n e, strconv.ParseUint s 10 32 = (n, Some (NumError "ParseUint" s e)).
Proof.
  intros Hno. unfold strconv.ParseUint.
  destruct (len s <? 1) eqn:Hl; [eauto|].
  change (strconv.maxUint64 / 10 + 1) with pgtype.cutoff10.
  change (2 ^ 32 - 1) with pgtype.maxUint32.
  destruct (ParseUint_loop_spec s 0 ltac:(unfold pgtype.maxUint32; lia))
    as [(Hd & Hle & _)|(_ & m & e & ->)]; [|eauto].
  exfalso. apply Hno. repeat split; [|exact Hd|].
  - intros ->. discriminate.
  - rewrite decimal_value_fold. unfold pgtype.maxUint32 in Hle. lia.
Qed.

Lemma digit_char_decimal (u : Z) :
  0 <= u < 10 ->
  pgtype.is_decimal_digit (strconv.digit_char u) = true
  /\ byte_to_Z (strconv.digit_char u) - 48 = u.
Proof.
  intros Hu. unfold strconv.digit_char, pgtype.is_decimal_digit.
  replace (u <? 10) with true by (symmetry; apply Z.ltb_lt; lia).
  rewrite byte_to_Z_to_byte, Z.mod_small by lia.
  split; [apply andb_true_iff; lia | lia].
Qed.

(** The digits [formatBits] writes in front of [a] denote [u]. *)
Lemma formatBits_decimal (fuel : nat) :
  forall u a, 0 <= u < 10 ^ Z.of_nat (S fuel) ->
    forallb pgtype.is_decimal_digit (strconv.formatBits fuel u 10 a)
    = forallb pgtype.is_decimal_digit a
    /\ fold_left pgtype.dec_step (strconv.formatBits fuel u 10 a) 0
       = fold_left pgtype.dec_step a u
    /\ strconv.formatBits fuel u 10 a <> [].
Proof.
  assert (Hlast : forall u a, 0 <= u < 10 ->
    forallb pgtype.is_decimal_digit (strconv.digit_char u :: a)
    = forallb pgtype.is_decimal_digit a
    /\ fold_left pgtype.dec_step (strconv.digit_char u :: a) 0
       = fold_left pgtype.dec_step a u
    /\ strconv.digit_char u :: a <> []).
  { intros u a Hu. destruct (digit_char_decimal u Hu) as [Hd Hv].
    cbn [forallb fold_left]. rewrite Hd.
    replace (pgtype.dec_step 0 (strconv.digit_char u)) with u
      by (unfold pgtype.dec_step; lia).
    repeat split. discriminate. }
  induction fuel as [|fuel IH]; intros u a Hu.
  - simpl. apply Hlast. simpl in Hu. lia.
  - cbn [strconv.formatBits]. destruct (u >=? 10) eqn:Hge.
    + rewrite Z.geb_leb in Hge. apply Z.leb_le in Hge.
      rewrite Nat2Z.inj_succ, Z.pow_succ_r in Hu by lia.
      assert (Hq : 0 <= u / 10 < 10 ^ Z.of_nat (S fuel))
        by (split; [apply Z.div_pos; lia | apply Z.div_lt_upper_bound; lia]).
      destruct (IH (u / 10) (strconv.digit_char (u - u / 10 * 10) :: a) Hq)
        as (Hd & Hv & Hne).
      pose proof (Z.div_mod u 10 ltac:(lia)).
      pose proof (Z.mod_pos_bound u 10 ltac:(lia)).
      destruct (digit_char_decimal (u - u / 10 * 10) ltac:(lia)) as [Hd' Hv'].
      rewrite Hd, Hv. cbn [forallb fold_left]. rewrite Hd'.
      replace (pgtype.dec_step (u / 10) (strconv.digit_char (u - u / 10 * 10)))
        with u by (unfold pgtype.dec_step; lia).
      repeat split. exact Hne.
    + apply Hlast. rewrite Z.geb_leb in Hge. apply Z.leb_gt in Hge. lia.
Qed.

Lemma FormatUint_decimal (v : Z) :
  0 <= v < 2 ^ 32 ->
  pgtype.decimal_uint32 (strconv.FormatUint v 10)
  /\ pgtype.decimal_value (strconv.FormatUint v 10) = v.
Proof.
  intros Hv. unfold strconv.FormatUint.
  assert (Hb : 0 <= v < 10 ^ Z.of_nat 65).
  { split; [lia|]. apply Z.lt_trans with (2 ^ 32); [lia|]. reflexivity. }
  destruct (formatBits_decimal 64 v [] Hb) as (Hd & Hval & Hne).
  change (fold_left pgtype.dec_step [] v) with v in Hval.
  change (forallb pgtype.is_decimal_digit []) with true in Hd.
  unfold pgtype.decimal_uint32. rewrite decimal_value_fold, Hval.
  repeat split; [exact Hne | exact Hd | lia].
Qed.

(** ** pguint32: the claims on the codec *)

Lemma len_4 {A} (s : list A) :
  len s = 4 -> exists a b c d, s = [a; b; c; d].
Proof.
  unfold len. intros H.
  destruct s as [|a [|b [|c [|d [|e s]]]]]; simpl in H; try lia.
  eauto.
Qed.

Lemma DecodeBinary_four (dst : pguint32) (b0 b1 b2 b3 : byte) :
  pgtype.DecodeBinary dst (Some [b0; b1; b2; b3])
  = ({| Uint := pgtype.big_endian_value b0 b1 b2 b3; status := Present |}, None).
Proof.
  unfold pgtype.DecodeBinary.
  change (len [b0; b1; b2; b3] =? 4) with true. cbn [negb].
  rewrite Uint32_big_endian. reflexivity.
Qed.

Lemma DecodeText_decimal (dst : pguint32) (s : list byte) :
  pgtype.decimal_uint32 s ->
  pgtype.DecodeText dst (Some s)
  = ({| Uint := pgtype.decimal_value s; status := Present |}, None).
Proof.
  intros Hs. unfold pgtype.DecodeText. rewrite (ParseUint_decimal s Hs).
  destruct Hs as (_ & Hd & Hlt).
  assert (0 <= pgtype.decimal_value s).
  { rewrite decimal_value_fold. apply fold_dec_step_mono; [lia|exact Hd]. }
  unfold pgtype.uint32. rewrite Z.mod_small by lia. reflexivity.
Qed.

(** Encoding a [Present] unsigned 32-bit value into an empty buffer and
    decoding the buffer gives the value back, in both wire forms. *)
Lemma encode_decode_present_aux (v : Z) (dst : pguint32) :
  0 <= v < 2 ^ 32 ->
  pgtype.DecodeBinary dst
    (Some (fst (pgtype.EncodeBinary {| Uint := v; status := Present |} [])))
  = ({| Uint := v; status := Present |}, None)
  /\ pgtype.DecodeText dst
       (Some (fst (pgtype.EncodeText {| Uint := v; status := Present |} [])))
     = ({| Uint := v; status := Present |}, None).
Proof.
  intros Hv. split.
  - unfold pgtype.EncodeBinary, pgio.WriteUint32. cbn [status Uint fst].
    unfold Write, Buffer_Writer. cbn [fst app].
    unfold pgtype.DecodeBinary.
    change (len (BigEndian.PutUint32 v) =? 4) with true. cbn [negb].
    rewrite (Uint32_PutUint32 v Hv). reflexivity.
  - unfold pgtype.EncodeText, io.WriteString. cbn [status Uint fst].
    rewrite (Z.mod_small v (2 ^ 64)) by lia.
    unfold Write, Buffer_Writer. cbn [fst app].
    destruct (FormatUint_decimal v Hv) as [Hd Hval].
    rewrite (DecodeText_decimal dst _ Hd), Hval. reflexivity.
Qed.

(** C2. [AssignTo] of a value that is not [Present] (so also of an
    [Undefined] one): into a [*uint32] it returns the cannot-assign error and
    leaves the heap as it is; into a valid [**uint32] it stores nil and
    returns no error. *)
Theorem AssignTo_not_Present (src : pguint32) (h : Heap) (p : option loc) (l : loc) :
  status src <> Present ->
  (l < length (pointers h))%nat ->
  pgtype.AssignTo src (VPtrUint32 p) h
  = Return (Some (cannotAssign src TPtrUint32)) h
  /\ pgtype.AssignTo src (VPtrPtrUint32 (Some l)) h
     = Return None {| uint32s := uint32s h; pointers := <[l := None]> (pointers h) |}.
Proof.
  intros Hs Hl. unfold pgtype.AssignTo, store_pointer.
  destruct (status src); try congruence;
    (split; [reflexivity|]); rewrite decide_True by exact Hl; reflexivity.
Qed.

Lemma AssignTo_not_Present_witness :
  pgtype.AssignTo (pguint32_Status Undefined) (VPtrUint32 (Some 0%nat))
    {| uint32s := [7]; pointers := [Some 0%nat] |}
  = Return (Some (cannotAssign (pguint32_Status Undefined) TPtrUint32))
      {| uint32s := [7]; pointers := [Some 0%nat] |}
  /\ pgtype.AssignTo (pguint32_Status Undefined) (VPtrPtrUint32 (Some 0%nat))
       {| uint32s := [7]; pointers := [Some 0%nat] |}
     = Return None {| uint32s := [7]; pointers := [None] |}.
Proof.
  apply (AssignTo_not_Present (pguint32_Status Undefined)
           {| uint32s := [7]; pointers := [Some 0%nat] |} (Some 0%nat) 0%nat).
  - simpl. discriminate.
  - simpl. lia.
Defined.

(** C3. For every unsigned 32-bit [v], [EncodeBinary] and [EncodeText] of
    [Present v] append bytes to a buffer without an error, and
    [DecodeBinary], respectively [DecodeText], of those bytes yields
    [Present v] again, whatever the destination held. *)
Theorem encode_decode_Present (v : Z) (dst : pguint32) (buf : list byte) :
  0 <= v < 2 ^ 32 ->
  exists bin txt,
    pgtype.EncodeBinary {| Uint := v; status := Present |} buf
    = (buf ++ bin, (false, None))
    /\ pgtype.DecodeBinary dst (Some bin)
       = ({| Uint := v; status := Present |}, None)
    /\ pgtype.EncodeText {| Uint := v; status := Present |} buf
       = (buf ++ txt, (false, None))
    /\ pgtype.DecodeText dst (Some txt)
       = ({| Uint := v; status := Present |}, None).
Proof.
  intros Hv.
  exists (BigEndian.PutUint32 v), (strconv.FormatUint v 10).
  split; [reflexivity|]. split.
  - unfold pgtype.DecodeBinary.
    change (len (BigEndian.PutUint32 v) =? 4) with true. cbn [negb].
    rewrite (Uint32_PutUint32 v Hv). reflexivity.
  - split.
    + unfold pgtype.EncodeText. cbn [status Uint].
      rewrite (Z.mod_small v (2 ^ 64)) by lia. reflexivity.
    + destruct (FormatUint_decimal v Hv) as [Hd Hval].
      rewrite (DecodeText_decimal dst _ Hd), Hval. reflexivity.
Qed.

Lemma encode_decode_Present_witness :
  exists bin txt,
    pgtype.EncodeBinary {| Uint := 4294967295; status := Present |} []
    = ([] ++ bin, (false, None))
    /\ pgtype.DecodeBinary (pguint32_Status Undefined) (Some bin)
       = ({| Uint := 4294967295; status := Present |}, None)
    /\ pgtype.EncodeText {| Uint := 4294967295; status := Present |} []
       = ([] ++ txt, (false, None))
    /\ pgtype.DecodeText (pguint32_Status Undefined) (Some txt)
       = ({| Uint := 4294967295; status := Present |}, None).
Proof.
  apply (encode_decode_Present 4294967295 (pguint32_Status Undefined) []).
  lia.
Defined.

(** C5 as stated fails: for the 64-bit integer 5 the message of the error is
    "cannot convert 5 to pguint32"; it shows the value, and the name of the
    type, int64, does not occur in it. *)
Lemma ConvertFrom_message_has_no_type :
  pgtype.ConvertFrom (pguint32_Status Undefined) (VInt64 5)
  = (pguint32_Status Undefined,
     Some (errorString "cannot convert 5 to pguint32"))
  /\ fmt.T (VInt64 5) = "int64"%string
  /\ pgtype.occurs_in (fmt.T (VInt64 5)) "cannot convert 5 to pguint32" = false.
Proof. vm_compute. repeat split. Qed.

(** C5, amended. [ConvertFrom] succeeds exactly on a source of type
    [uint32], which it stores unchanged as a [Present] value; for a source of
    any other type it leaves the destination as it was and returns an error
    whose message shows the source value as [%v] prints it. *)
Theorem ConvertFrom_uint32_only (dst : pguint32) (src : GoValue) :
  (forall value, src = VUint32 value ->
     pgtype.ConvertFrom dst src = ({| Uint := value; status := Present |}, None))
  /\ (TypeOf src <> TUint32 ->
      pgtype.ConvertFrom dst src
      = (dst, Some (errorString
                      ("cannot convert " ++ fmt.v src ++ " to pguint32")))).
Proof.
  split.
  - intros value ->. reflexivity.
  - intros Hty. destruct src; try reflexivity. simpl in Hty. congruence.
Qed.

Lemma ConvertFrom_uint32_only_witness :
  pgtype.ConvertFrom (pguint32_Status Null) (VUint32 7)
  = ({| Uint := 7; status := Present |}, None)
  /\ pgtype.ConvertFrom (pguint32_Status Null) (VUint64 7)
     = (pguint32_Status Null,
        Some (errorString
                ("cannot convert " ++ fmt.v (VUint64 7) ++ " to pguint32"))).
Proof.
  split.
  - apply (proj1 (ConvertFrom_uint32_only (pguint32_Status Null) (VUint32 7)) 7).
    reflexivity.
  - apply (proj2 (ConvertFrom_uint32_only (pguint32_Status Null) (VUint64 7))).
    simpl. discriminate.
Defined.

(** C6. Whatever the writer: a [Null] value makes [EncodeText] and
    [EncodeBinary] return true and no error without calling [Write]; an
    [Undefined] value makes them return the undefined-status error without
    calling [Write]; a [Present] value makes each call [Write] once, with
    the decimal digits, respectively the four big-endian bytes, and pass on
    the error of the writer. *)
Theorem encode_writes_iff_Present `{Writer W} (src : pguint32) (w : W) :
  match status src with
  | Null =>
    pgtype.EncodeText src w = (w, (true, None))
    /\ pgtype.EncodeBinary src w = (w, (true, None))
  | Undefined =>
    pgtype.EncodeText src w = (w, (false, Some errUndefined))
    /\ pgtype.EncodeBinary src w = (w, (false, Some errUndefined))
  | Present =>
    exists txt bin,
      (0 < length txt)%nat /\ length bin = 4%nat
      /\ pgtype.EncodeText src w
         = (fst (Write w txt), (false, snd (snd (Write w txt))))
      /\ pgtype.EncodeBinary src w
         = (fst (Write w bin), (false, snd (snd (Write w bin))))
  end.
Proof.
  unfold pgtype.EncodeText, pgtype.EncodeBinary, io.WriteString,
    pgio.WriteUint32.
  destruct (status src); try (split; reflexivity).
  exists (strconv.FormatUint (Uint src mod 2 ^ 64) 10),
         (BigEndian.PutUint32 (Uint src)).
  split.
  - assert (Hb : 0 <= Uint src mod 2 ^ 64 < 10 ^ Z.of_nat 65).
    { pose proof (Z.mod_pos_bound (Uint src) (2 ^ 64) eq_refl).
      split; [lia|]. apply Z.lt_trans with (2 ^ 64); [lia|reflexivity]. }
    destruct (formatBits_decimal 64 _ [] Hb) as (_ & _ & Hne).
    unfold strconv.FormatUint.
    destruct (strconv.formatBits 64 (Uint src mod 2 ^ 64) 10 []);
      [congruence | simpl; lia].
  - split; [reflexivity|].
    split.
    + destruct (Write w _) as [w' [n e]]. reflexivity.
    + destruct (Write w _) as [w' [n e]]. reflexivity.
Qed.

(** C7. [DecodeBinary] maps the nil slice to [Null] (with the number 0);
    on a slice of length 4
    it yields [Present] of the big-endian value of the four bytes; on a
    slice of any other length it returns the invalid-length error and leaves
    the destination as it was. *)
Theorem DecodeBinary_spec (dst : pguint32) (s : list byte) :
  pgtype.DecodeBinary dst None = ({| Uint := 0; status := Null |}, None)
  /\ (len s = 4 ->
      exists b0 b1 b2 b3,
        s = [b0; b1; b2; b3]
        /\ pgtype.DecodeBinary dst (Some s)
           = ({| Uint := pgtype.big_endian_value b0 b1 b2 b3;
                 status := Present |}, None))
  /\ (len s <> 4 ->
      pgtype.DecodeBinary dst (Some s)
      = (dst, Some (errorString
                      ("invalid length: "
                         ++ fmt.str (strconv.FormatInt (len s) 10))))).
Proof.
  split; [reflexivity|]. split.
  - intros Hl. destruct (len_4 s Hl) as (b0 & b1 & b2 & b3 & ->).
    exists b0, b1, b2, b3. split; [reflexivity|apply DecodeBinary_four].
  - intros Hl. unfold pgtype.DecodeBinary.
    rewrite (proj2 (Z.eqb_neq (len s) 4) Hl). reflexivity.
Qed.

Lemma DecodeBinary_spec_witness :
  pgtype.DecodeBinary {| Uint := 9; status := Present |} None
  = ({| Uint := 0; status := Null |}, None)
  /\ (exists b0 b1 b2 b3,
     [x00; x00; x01; x02] = [b0; b1; b2; b3]
     /\ pgtype.DecodeBinary (pguint32_Status Undefined)
          (Some [x00; x00; x01; x02])
        = ({| Uint := pgtype.big_endian_value b0 b1 b2 b3;
              status := Present |}, None))
  /\ pgtype.DecodeBinary (pguint32_Status Undefined) (Some [x01; x02])
     = (pguint32_Status Undefined,
        Some (errorString
                ("invalid length: "
                   ++ fmt.str (strconv.FormatInt (len [x01; x02]) 10)))).
Proof.
  split; [|split].
  - apply (proj1 (DecodeBinary_spec {| Uint := 9; status := Present |} [])).
  - apply (proj1 (proj2 (DecodeBinary_spec (pguint32_Status Undefined)
                           [x00; x00; x01; x02]))).
    reflexivity.
  - apply (proj2 (proj2 (DecodeBinary_spec (pguint32_Status Undefined)
                           [x01; x02]))).
    vm_compute. discriminate.
Defined.

(** C8. [DecodeText] maps the nil slice to [Null] (with the number 0); on
    a non-empty string of
    decimal digits whose value fits in 32 bits it yields [Present] of that
    value; on every other non-nil input it returns the [NumError] of
    [ParseUint] and leaves the destination as it was. *)
Theorem DecodeText_spec (dst : pguint32) (s : list byte) :
  pgtype.DecodeText dst None = ({| Uint := 0; status := Null |}, None)
  /\ (pgtype.decimal_uint32 s ->
      pgtype.DecodeText dst (Some s)
      = ({| Uint := pgtype.decimal_value s; status := Present |}, None))
  /\ (~ pgtype.decimal_uint32 s ->
      exists e, pgtype.DecodeText dst (Some s)
                = (dst, Some (NumError "ParseUint" s e))).
Proof.
  split; [reflexivity|]. split.
  - apply DecodeText_decimal.
  - intros Hno. destruct (ParseUint_not_decimal s Hno) as (n & e & Hp).
    exists e. unfold pgtype.DecodeText. rewrite Hp. reflexivity.
Qed.

Lemma DecodeText_spec_witness :
  pgtype.DecodeText {| Uint := 9; status := Present |} None
  = ({| Uint := 0; status := Null |}, None)
  /\ pgtype.DecodeText (pguint32_Status Undefined) (Some (bytes_of "0042"))
  = ({| Uint := pgtype.decimal_value (bytes_of "0042"); status := Present |},
     None)
  /\ exists e, pgtype.DecodeText (pguint32_Status Undefined)
                 (Some (bytes_of "4294967296"))
               = (pguint32_Status Undefined,
                  Some (NumError "ParseUint" (bytes_of "4294967296") e)).
Proof.
  split; [|split].
  - apply (proj1 (DecodeText_spec {| Uint := 9; status := Present |} [])).
  - apply (proj1 (proj2 (DecodeText_spec (pguint32_Status Undefined)
                           (bytes_of "0042")))).
    split; [discriminate | split; vm_compute; reflexivity].
  - apply (proj2 (proj2 (DecodeText_spec (pguint32_Status Undefined)
                           (bytes_of "4294967296")))).
    intros (_ & _ & Hlt). vm_compute in Hlt. discriminate.
Defined.

(** C9. For a destination that is neither a [*uint32] nor a [**uint32],
    [AssignTo] returns no error and leaves the heap, and so the destination,
    as it was, whatever the status of the source. *)
Theorem AssignTo_other_destination (src : pguint32) (dst : GoValue) (h : Heap) :
  TypeOf dst <> TPtrUint32 ->
  TypeOf dst <> TPtrPtrUint32 ->
  pgtype.AssignTo src dst h = Return None h.
Proof.
  intros H1 H2. destruct dst; simpl in *; congruence.
Qed.

Lemma AssignTo_other_destination_witness :
  pgtype.AssignTo {| Uint := 5; status := Present |} (VUint64 9)
    {| uint32s := [7]; pointers := [] |}
  = Return None {| uint32s := [7]; pointers := [] |}.
Proof.
  apply AssignTo_other_destination; simpl; discriminate.
Defined.

(** C10. When [DecodeText] or [DecodeBinary] returns an error, the
    destination is what it was before the call. *)
Theorem Decode_error_keeps_destination
  (dst dst' : pguint32) (src : option (list byte)) (e : error) :
  (pgtype.DecodeText dst src = (dst', Some e) -> dst' = dst)
  /\ (pgtype.DecodeBinary dst src = (dst', Some e) -> dst' = dst).
Proof.
  split.
  - unfold pgtype.DecodeText. destruct src as [s|]; [|discriminate].
    destruct (strconv.ParseUint s 10 32) as [n [err|]]; congruence.
  - unfold pgtype.DecodeBinary. destruct src as [s|]; [|discriminate].
    destruct (negb (len s =? 4)); [congruence|].
    destruct (BigEndian.Uint32 s); congruence.
Qed.

Lemma Decode_error_keeps_destination_witness :
  {| Uint := 9; status := Present |} = {| Uint := 9; status := Present |}
  /\ {| Uint := 9; status := Present |} = {| Uint := 9; status := Present |}.
Proof.
  split.
  - apply (proj1 (Decode_error_keeps_destination
                    {| Uint := 9; status := Present |}
                    {| Uint := 9; status := Present |}
                    (Some (bytes_of "12a"))
                    (NumError "ParseUint" (bytes_of "12a") ErrSyntax))).
    vm_compute. reflexivity.
  - apply (proj2 (Decode_error_keeps_destination
                    {| Uint := 9; status := Present |}
                    {| Uint := 9; status := Present |}
                    (Some [x01; x02; x03])
                    (errorString "invalid length: 3"))).
    vm_compute. reflexivity.
Defined.

(** * Properties of the batch controller *)

Module batch_facts.
Import pgx batch_state.

(** ** A dead connection stays dead *)

Lemma die_dead (e : error) (w : World) : alive (conn (die e w)) = false.
Proof. reflexivity. Qed.

Lemma alive_note (e : error) (w : World) :
  alive (conn (note_server_error e w)) = alive (conn w).
Proof.
  unfold note_server_error. destruct e; try reflexivity.
  destruct (err (batch w)); reflexivity.
Qed.

Lemma dead_raise (e : error) (w : World) :
  alive (conn w) = false -> alive (conn (raise e w)) = false.
Proof.
  intros H. unfold raise. destruct (fatal e); [apply die_dead|].
  rewrite alive_note. exact H.
Qed.

Lemma dead_rows_fatal (e : error) (w : World) :
  alive (conn w) = false -> alive (conn (rows_fatal e w)) = false.
Proof.
  intros H. unfold rows_fatal. apply dead_raise. destruct e; exact H.
Qed.

Lemma dead_read_error (w : World) :
  alive (conn w) = false -> read_error w = Some ErrDeadConn.
Proof. intros H. unfold read_error. rewrite H. reflexivity. Qed.

Lemma dead_RowsClose (w : World) :
  alive (conn w) = false -> alive (conn (snd (RowsClose w))) = false.
Proof.
  intros H. unfold RowsClose. rewrite (dead_read_error w H).
  destruct (rows_open (rows w)); simpl; auto using dead_rows_fatal.
Qed.

Lemma dead_Next (w : World) :
  alive (conn w) = false -> alive (conn (snd (Next w))) = false.
Proof.
  intros H. unfold Next. rewrite (dead_read_error w H).
  destruct (rows_open (rows w)); simpl; auto using dead_rows_fatal.
Qed.

Lemma dead_accessor_guard (w : World) :
  alive (conn w) = false -> alive (conn (snd (accessor_guard w))) = false.
Proof.
  intros H. unfold accessor_guard.
  destruct (sticky_fatal (err (batch w))); [exact H|].
  destruct (negb (sent (batch w))); [exact H|].
  destruct (ctx_done w); [apply die_dead|].
  destruct (_ <=? _)%nat; exact H.
Qed.

Lemma dead_ExecResults (w : World) :
  alive (conn w) = false -> alive (conn (snd (ExecResults w))) = false.
Proof.
  intros H. unfold ExecResults.
  pose proof (dead_accessor_guard w H) as Hg.
  destruct (accessor_guard w) as [[e|] w1]; simpl in Hg; [exact Hg|].
  pose proof (dead_RowsClose w1 Hg) as Hc.
  destruct (RowsClose w1) as [u w2]; simpl in Hc.
  destruct (sticky_fatal (err (batch w2))); [exact Hc|].
  rewrite (dead_read_error (advance w2) Hc). cbn [snd].
  apply dead_raise. exact Hc.
Qed.

Lemma dead_QueryResults (w : World) :
  alive (conn w) = false -> alive (conn (snd (QueryResults w))) = false.
Proof.
  intros H. unfold QueryResults.
  pose proof (dead_accessor_guard w H) as Hg.
  destruct (accessor_guard w) as [[e|] w1]; simpl in Hg.
  - simpl. apply dead_rows_fatal. exact Hg.
  - pose proof (dead_RowsClose w1 Hg) as Hc.
    destruct (RowsClose w1) as [u w2]; simpl in Hc.
    destruct (sticky_fatal (err (batch w2))); simpl.
    + apply dead_rows_fatal. exact Hc.
    + exact Hc.
Qed.

Lemma dead_drain (n : nat) :
  forall w, alive (conn w) = false -> alive (conn (snd (drain n w))) = false.
Proof.
  induction n as [|n IH]; intros w H; [exact H|].
  cbn [drain]. unfold bind.
  pose proof (dead_ExecResults w H) as He.
  destruct (ExecResults w) as [[z e] w1]; simpl in *.
  destruct (sticky_fatal e); simpl; auto.
Qed.

Lemma dead_ensure (w : World) :
  alive (conn w) = false ->
  alive (conn (snd (ensureConnectionReadyForQuery w))) = false.
Proof.
  intros H. unfold ensureConnectionReadyForQuery.
  rewrite (dead_read_error w H).
  destruct (pendingReadyForQuery (conn w)); [apply die_dead|exact H].
Qed.

Lemma dead_Close (w : World) :
  alive (conn w) = false -> alive (conn (snd (Close w))) = false.
Proof.
  intros H. unfold Close.
  destruct (sticky_fatal (err (batch w))); [exact H|].
  pose proof (dead_RowsClose w H) as Hc.
  destruct (RowsClose w) as [u w1]; simpl in Hc.
  destruct (sticky_fatal (err (batch w1))); [exact Hc|].
  pose proof (dead_drain (length (items (batch w1)) - resultsRead (batch w1))
                w1 Hc) as Hd.
  destruct (drain _ w1) as [[e|] w2]; simpl in Hd; [exact Hd|].
  pose proof (dead_ensure w2 Hd) as He.
  destruct (ensureConnectionReadyForQuery w2) as [[e|] w3]; simpl in He;
    [exact He|].
  simpl. destruct (rowsFailed (batch w3)); [reflexivity|exact He].
Qed.

Lemma dead_Send (w : World) :
  alive (conn w) = false -> alive (conn (snd (Send w))) = false.
Proof.
  intros H. unfold Send. rewrite H.
  destruct (err (batch w)); [exact H|].
  destruct (sent (batch w)); [exact H|].
  destruct (ctx_done w); exact H.
Qed.

Lemma dead_step (o : Op) (w : World) :
  alive (conn w) = false -> alive (conn (step o w)) = false.
Proof.
  intros H. destruct o; simpl;
    auto using dead_Send, dead_ExecResults, dead_QueryResults, dead_Next,
      dead_RowsClose, dead_Close.
  - unfold Queue. destruct (sent (batch w)); exact H.
  - unfold Scan. destruct (rows_open (rows w)); [|exact H].
    destruct (decide _); exact H.
Qed.

Lemma dead_run (ops : list Op) :
  forall w, alive (conn w) = false -> alive (conn (run ops w)) = false.
Proof.
  induction ops as [|o ops IH]; intros w H; [exact H|].
  apply IH, dead_step, H.
Qed.

Lemma Send_ok (w w1 : World) :
  Send w = (None, w1) -> err (batch w1) = None /\ sent (batch w1) = true.
Proof.
  unfold Send. intros H.
  destruct (err (batch w)); [discriminate|].
  destruct (sent (batch w)); [discriminate|].
  destruct (ctx_done w); [discriminate|].
  destruct (alive (conn w)); [|discriminate].
  injection H as <-. split; reflexivity.
Qed.

Lemma guard_canceled (w : World) :
  err (batch w) = None -> sent (batch w) = true -> ctx_done w = true ->
  accessor_guard w = (Some Canceled, die Canceled w).
Proof.
  intros He Hs Hd. unfold accessor_guard. rewrite He, Hs, Hd. reflexivity.
Qed.

(** C4. When the token is cancelled after [Send] has returned without an
    error, the next accessor, [ExecResults] or [QueryResults], returns the
    cancellation error, and [IsAlive] reports false after it and after
    every further sequence of calls. *)
Theorem cancel_after_Send_is_fatal (w w1 : World) (ops : list Op) :
  Send w = (None, w1) ->
  snd (fst (ExecResults (snd (cancelFn w1)))) = Some Canceled
  /\ fst (IsAlive (run ops (snd (ExecResults (snd (cancelFn w1)))))) = false
  /\ fst (QueryResults (snd (cancelFn w1))) = Some Canceled
  /\ fst (IsAlive (run ops (snd (QueryResults (snd (cancelFn w1)))))) = false.
Proof.
  intros Hs. apply Send_ok in Hs as [He Hsent].
  set (w2 := snd (cancelFn w1)).
  pose proof (guard_canceled w2 He Hsent eq_refl) as Hg.
  unfold ExecResults, QueryResults, IsAlive. rewrite Hg. simpl.
  repeat split.
  - apply dead_run. apply die_dead.
  - apply dead_run, dead_rows_fatal. reflexivity.
Qed.

Lemma cancel_after_Send_is_fatal_witness :
  snd (fst (ExecResults
              (snd (cancelFn (snd (Send (queued postgres
                 [mk_batchItem "select pg_sleep(2)" [] [] []]))))))) = Some Canceled
  /\ fst (IsAlive (run [OpClose; OpBeginBatch; OpSend]
            (snd (ExecResults
               (snd (cancelFn (snd (Send (queued postgres
                  [mk_batchItem "select pg_sleep(2)" [] [] []]))))))))) = false
  /\ fst (QueryResults
            (snd (cancelFn (snd (Send (queued postgres
               [mk_batchItem "select pg_sleep(2)" [] [] []])))))) = Some Canceled
  /\ fst (IsAlive (run [OpClose; OpBeginBatch; OpSend]
            (snd (QueryResults
               (snd (cancelFn (snd (Send (queued postgres
                  [mk_batchItem "select pg_sleep(2)" [] [] []]))))))))) = false.
Proof.
  apply (cancel_after_Send_is_fatal
           (queued postgres [mk_batchItem "select pg_sleep(2)" [] [] []])
           (snd (Send (queued postgres
              [mk_batchItem "select pg_sleep(2)" [] [] []])))
           [OpClose; OpBeginBatch; OpSend]).
  vm_compute. reflexivity.
Defined.

(** ** Reading the results of a sent batch *)

Lemma readCommandComplete_rows (rs : list (list Z)) (m : Message)
  (ms : list Message) :
  readCommandComplete (map DataRow rs ++ m :: ms)
  = readCommandComplete (m :: ms).
Proof. induction rs as [|r rs IH]; [reflexivity|exact IH]. Qed.

Lemma run_app (ops1 ops2 : list Op) (w : World) :
  run (ops1 ++ ops2) w = run ops2 (run ops1 w).
Proof. unfold run. apply fold_left_app. Qed.

Lemma run_queue (its : list batchItem) :
  forall w, sent (batch w) = false ->
    run (map OpQueue its) w
    = set_batch {| items := items (batch w) ++ its;
                   resultsRead := resultsRead (batch w);
                   sent := false; err := err (batch w);
                   rowsFailed := rowsFailed (batch w) |} w.
Proof.
  induction its as [|it its IH]; intros w Hs.
  - simpl. rewrite app_nil_r. destruct w as [c d [i r s e f] rw].
    simpl in Hs. subst s. reflexivity.
  - cbn [map]. change (run (OpQueue it :: map OpQueue its) w)
      with (run (map OpQueue its) (step (OpQueue it) w)).
    cbn [step]. unfold Queue at 1. rewrite Hs. cbn [snd].
    rewrite IH by reflexivity. destruct it. unfold set_batch. cbn.
    rewrite <- app_assoc. reflexivity.
Qed.

Lemma Send_queued (srv : batchItem -> Result) (its : list batchItem) :
  fst (Send (queued srv its)) = None
  /\ synced srv its 0 (snd (Send (queued srv its))).
Proof.
  unfold queued. rewrite run_queue by reflexivity.
  split; [reflexivity|]. repeat split.
Qed.

Lemma closed_Next (w : World) :
  rows_open (rows w) = false -> Next w = (false, w).
Proof. intros H. unfold Next. rewrite H. reflexivity. Qed.

Lemma closed_Nexts (n : nat) (w : World) :
  rows_open (rows w) = false -> run (repeat OpNext n) w = w.
Proof.
  intros H. induction n as [|n IH]; [reflexivity|].
  cbn [repeat]. change (run (OpNext :: repeat OpNext n) w)
    with (run (repeat OpNext n) (step OpNext w)).
  cbn [step]. rewrite (closed_Next w H). exact IH.
Qed.

(** Reading a statement that completes, with any number of calls of [Next]
    and then [rows.Close()], leaves the stream at the next statement. *)
Lemma read_complete (srv : batchItem -> Result) (its : list batchItem)
  (j : nat) (c : Z) (n : nat) :
  forall (rs : list (list Z)) (w : World),
    reading srv its j
      (map DataRow rs ++ CommandComplete c
           :: respond (map srv (drop (S j) its))) w ->
    synced srv its (S j) (run (repeat OpNext n ++ [OpRowsClose]) w).
Proof.
  induction n as [|n IH]; intros rs w (Hc & Hd & Hb & Hr).
  - destruct w as [cn d b rw]. simpl in *. subst cn d b.
    unfold run. simpl. unfold RowsClose, read_error. cbn. rewrite Hr.
    rewrite readCommandComplete_rows. cbn. repeat split.
  - cbn [repeat app].
    change (run (OpNext :: repeat OpNext n ++ [OpRowsClose]) w)
      with (run (repeat OpNext n ++ [OpRowsClose]) (step OpNext w)).
    destruct w as [cn d b rw]. simpl in Hc, Hd, Hb, Hr. subst cn d b.
    destruct rs as [|r rs].
    + cbn [step]. unfold Next, read_error. cbn. rewrite Hr. cbn.
      rewrite run_app, closed_Nexts by reflexivity.
      unfold run. simpl. unfold RowsClose. cbn. repeat split.
    + cbn [step]. unfold Next, read_error. cbn. rewrite Hr. cbn.
      apply (IH rs). repeat split.
Qed.

(** Consuming a statement that completes moves the batch to the next one. *)
Lemma consume_complete (srv : batchItem -> Result) (its : list batchItem)
  (j : nat) (it : batchItem) (rs : list (list Z)) (c : Z) (a : Access)
  (w : World) :
  synced srv its j w -> its !! j = Some it -> srv it = Complete rs c ->
  synced srv its (S j) (run (consume a) w).
Proof.
  intros (Hc & Hd & Hb & Hr) Hit Hsrv.
  assert (Hlt : (j < length its)%nat) by (eapply lookup_lt_Some; exact Hit).
  assert (Hle : (length its <=? j)%nat = false) by (apply Nat.leb_gt; exact Hlt).
  rewrite (drop_S its it j Hit) in Hc. cbn [map respond] in Hc.
  rewrite Hsrv in Hc.
  destruct w as [cn d b rw]. simpl in Hc, Hd, Hb, Hr. subst cn d b.
  destruct a as [|n].
  - unfold run. simpl. unfold ExecResults, accessor_guard. cbn.
    rewrite Hle. cbn. unfold RowsClose. cbn. rewrite Hr. cbn.
    rewrite readCommandComplete_rows. cbn. repeat split. exact Hr.
  - cbn [consume].
    change (run (OpQueryResults :: repeat OpNext n ++ [OpRowsClose]) ?x)
      with (run (repeat OpNext n ++ [OpRowsClose]) (step OpQueryResults x)).
    apply (read_complete srv its j c n rs).
    cbn [step]. unfold QueryResults, accessor_guard. cbn.
    rewrite Hle. cbn. unfold RowsClose. cbn. rewrite Hr. cbn.
    repeat split.
Qed.

Lemma consume_all (srv : batchItem -> Result) (its : list batchItem)
  (accs : list Access) :
  forall (j : nat) (w : World),
    synced srv its j w ->
    (forall i it, (j <= i < j + length accs)%nat -> its !! i = Some it ->
                  exists rs c, srv it = Complete rs c) ->
    (j + length accs <= length its)%nat ->
    synced srv its (j + length accs) (run (concat (map consume accs)) w).
Proof.
  induction accs as [|a accs IH]; intros j w Hw Hok Hlen.
  - simpl. rewrite Nat.add_0_r. exact Hw.
  - cbn [map concat length] in *. rewrite run_app.
    destruct (lookup_lt_is_Some_2 its j ltac:(lia)) as [it Hit].
    destruct (Hok j it ltac:(lia) Hit) as (rs & c & Hsrv).
    replace (j + S (length accs))%nat with (S j + length accs)%nat by lia.
    apply IH.
    + eapply consume_complete; eauto.
    + intros i it' Hi. apply Hok. lia.
    + lia.
Qed.

Lemma consumed_prefix (srv : batchItem -> Result) (its : list batchItem)
  (accs : list Access) :
  (forall i it, (i < length accs)%nat -> its !! i = Some it ->
                exists rs c, srv it = Complete rs c) ->
  (length accs <= length its)%nat ->
  synced srv its (length accs)
    (run (concat (map consume accs)) (snd (Send (queued srv its)))).
Proof.
  intros Hok Hlen. destruct (Send_queued srv its) as [_ H0].
  change (length accs) with (0 + length accs)%nat.
  apply consume_all; [exact H0 | | lia].
  intros i it Hi. apply Hok. lia.
Qed.

(** ** A statement that fails with a server error *)











End batch_facts.

(** * Further properties of pguint32.go *)

(** ** AssignTo and the heap *)

Lemma AssignTo_stores (src : pguint32) (h : Heap) (l : loc) :
  status src = Present ->
  (l < length (uint32s h))%nat ->
  pgtype.AssignTo src (VPtrUint32 (Some l)) h
  = Return None {| uint32s := <[l := Uint src]> (uint32s h);
                   pointers := pointers h |}.
Proof.
  intros Hs Hl. unfold pgtype.AssignTo, store_uint32. rewrite Hs.
  rewrite decide_True by exact Hl. reflexivity.
Qed.

(** X1. [AssignTo] of a [Present] value into a non-nil [*uint32] returns no
    error; afterwards the variable pointed to holds [Uint], every other
    [uint32] variable holds what it held, and no pointer variable changed. *)
Theorem AssignTo_Present_pointer (src : pguint32) (h : Heap) (l : loc) :
  status src = Present ->
  (l < length (uint32s h))%nat ->
  exists h',
    pgtype.AssignTo src (VPtrUint32 (Some l)) h = Return None h'
    /\ uint32s h' !! l = Some (Uint src)
    /\ (forall l', l' <> l -> uint32s h' !! l' = uint32s h !! l')
    /\ pointers h' = pointers h.
Proof.
  intros Hs Hl. rewrite (AssignTo_stores src h l Hs Hl).
  eexists. split; [reflexivity|]. cbn.
  split; [apply list_lookup_insert_eq; exact Hl|].
  split; [|reflexivity].
  intros l' Hne. apply list_lookup_insert_ne. congruence.
Qed.

Lemma AssignTo_Present_pointer_witness :
  exists h',
    pgtype.AssignTo {| Uint := 42; status := Present |} (VPtrUint32 (Some 1%nat))
      {| uint32s := [7; 8; 9]; pointers := [Some 0%nat] |} = Return None h'
    /\ uint32s h' !! 1%nat = Some 42
    /\ (forall l', l' <> 1%nat -> uint32s h' !! l' = [7; 8; 9] !! l')
    /\ pointers h' = [Some 0%nat].
Proof.
  apply (AssignTo_Present_pointer {| Uint := 42; status := Present |}
           {| uint32s := [7; 8; 9]; pointers := [Some 0%nat] |} 1%nat).
  - reflexivity.
  - simpl. lia.
Defined.

(** X2. [AssignTo] of a [Present] value into a non-nil [**uint32] returns no
    error and makes the pointer variable point to a cell that did not exist
    before and holds [Uint]; every [uint32] variable that existed holds
    what it held (so the cell the pointer pointed to before is not written),
    and every other pointer variable is unchanged. *)
Theorem AssignTo_Present_pointer_pointer (src : pguint32) (h : Heap) (l : loc) :
  status src = Present ->
  (l < length (pointers h))%nat ->
  exists n h',
    pgtype.AssignTo src (VPtrPtrUint32 (Some l)) h = Return None h'
    /\ pointers h' !! l = Some (Some n)
    /\ uint32s h !! n = None
    /\ uint32s h' !! n = Some (Uint src)
    /\ (forall l' x, uint32s h !! l' = Some x -> uint32s h' !! l' = Some x)
    /\ (forall l', l' <> l -> pointers h' !! l' = pointers h !! l').
Proof.
  intros Hs Hl. unfold pgtype.AssignTo, alloc_uint32, store_pointer.
  rewrite Hs. cbn [pointers uint32s]. rewrite decide_True by exact Hl.
  exists (length (uint32s h)). eexists. split; [reflexivity|]. cbn.
  split; [apply list_lookup_insert_eq; exact Hl|].
  split; [apply lookup_ge_None_2; lia|].
  split; [rewrite lookup_app_r by lia; rewrite Nat.sub_diag; reflexivity|].
  split.
  - intros l' x Hx. apply lookup_app_l_Some. exact Hx.
  - intros l' Hne. apply list_lookup_insert_ne. congruence.
Qed.

Lemma AssignTo_Present_pointer_pointer_witness :
  exists n h',
    pgtype.AssignTo {| Uint := 42; status := Present |}
      (VPtrPtrUint32 (Some 0%nat))
      {| uint32s := [7]; pointers := [Some 0%nat] |} = Return None h'
    /\ pointers h' !! 0%nat = Some (Some n)
    /\ [7] !! n = None
    /\ uint32s h' !! n = Some 42
    /\ (forall l' x, [7] !! l' = Some x -> uint32s h' !! l' = Some x)
    /\ (forall l', l' <> 0%nat -> pointers h' !! l' = [Some 0%nat] !! l').
Proof.
  apply (AssignTo_Present_pointer_pointer {| Uint := 42; status := Present |}
           {| uint32s := [7]; pointers := [Some 0%nat] |} 0%nat).
  - reflexivity.
  - simpl. lia.
Defined.

(** With a receiver that is not nil and a destination pointer that is nil
    or points into the heap, [AssignTo] panics exactly when it has to write
    through a nil pointer. *)
Lemma AssignTo_panics_on_nil_only (src : pguint32) (dst : GoValue) (h : Heap) :
  pointer_ok dst h ->
  (pgtype.AssignTo src dst h = Panic
   <-> (dst = VPtrUint32 None /\ status src = Present)
       \/ dst = VPtrPtrUint32 None).
Proof.
  intros Hok. unfold pgtype.AssignTo, store_uint32, store_pointer, alloc_uint32.
  destruct dst as [| | | | | | | | | | | | | |[l|]|[l|]]; simpl in Hok;
    try (split; [discriminate | intros [[? _]|?]; discriminate]).
  - destruct (status src); rewrite ?decide_True by exact Hok;
      (split; [discriminate | intros [[? _]|?]; discriminate]).
  - destruct (status src) eqn:Hs.
    + split; [discriminate | intros [[_ ?]|?]; discriminate].
    + split; [discriminate | intros [[_ ?]|?]; discriminate].
    + split; [auto | reflexivity].
  - cbn [pointers]. destruct (status src); rewrite ?decide_True by exact Hok;
      (split; [discriminate | intros [[? _]|?]; discriminate]).
  - destruct (status src); (split; [auto | reflexivity]).
Qed.

(** X3. With a destination pointer that is nil or points into the heap,
    the method [AssignTo] panics exactly when it dereferences a nil pointer:
    a nil receiver with a [*uint32] or [**uint32] destination (both cases
    read [src.Status] first); a nil [*uint32] destination with a [Present]
    source; a nil [**uint32] destination with any source. A nil [*uint32]
    with a source that is not [Present] gets the error instead, and a
    destination of another type never panics, even with a nil receiver. *)
Theorem AssignTo_panics_exactly (src : option pguint32) (dst : GoValue)
  (h : Heap) :
  pointer_ok dst h ->
  (pgtype.AssignTo_method src dst h = Panic
   <-> (src = None /\ (TypeOf dst = TPtrUint32 \/ TypeOf dst = TPtrPtrUint32))
       \/ (exists s, src = Some s
                     /\ ((dst = VPtrUint32 None /\ status s = Present)
                         \/ dst = VPtrPtrUint32 None))).
Proof.
  intros Hok. destruct src as [s|].
  - assert (Hm : pgtype.AssignTo_method (Some s) dst h = pgtype.AssignTo s dst h)
      by (destruct dst; reflexivity).
    rewrite Hm, (AssignTo_panics_on_nil_only s dst h Hok). split.
    + intros H. right. exists s. auto.
    + intros [[H _]|(s' & [= <-] & H)]; [discriminate|exact H].
  - destruct dst; simpl;
      try (split; [discriminate
                  | intros [[_ [H|H]]|(s' & H & _)]; discriminate]);
      (split; [auto | reflexivity]).
Qed.

Lemma AssignTo_panics_exactly_witness :
  pgtype.AssignTo_method None (VPtrUint32 (Some 0%nat))
    {| uint32s := [7]; pointers := [] |} = Panic
  <-> (@None pguint32 = None
       /\ (TypeOf (VPtrUint32 (Some 0%nat)) = TPtrUint32
           \/ TypeOf (VPtrUint32 (Some 0%nat)) = TPtrPtrUint32))
      \/ (exists s, None = Some s
                    /\ ((VPtrUint32 (Some 0%nat) = VPtrUint32 None
                         /\ status s = Present)
                        \/ VPtrUint32 (Some 0%nat) = VPtrPtrUint32 None)).
Proof.
  apply (AssignTo_panics_exactly None (VPtrUint32 (Some 0%nat))
           {| uint32s := [7]; pointers := [] |}).
  simpl. lia.
Defined.

(** [AssignTo] keeps the heap well formed: when it returns, no variable has
    disappeared, and every pointer variable is still nil or points to a
    cell. *)
Lemma AssignTo_keeps_heap_wf (src : pguint32) (dst : GoValue) (h h' : Heap)
  (e : option error) :
  heap_wf h ->
  pgtype.AssignTo src dst h = Return e h' ->
  heap_wf h'
  /\ (length (uint32s h) <= length (uint32s h'))%nat
  /\ length (pointers h') = length (pointers h).
Proof.
  intros Hwf. unfold pgtype.AssignTo, store_uint32, store_pointer, alloc_uint32.
  assert (Hgrow : forall x,
    Forall (fun p => match p with
                     | Some l => (l < length (uint32s h ++ [x]))%nat
                     | None => True
                     end) (pointers h)).
  { intros x. eapply Forall_impl; [exact Hwf|].
    intros [l|]; [|auto]. rewrite length_app. simpl. lia. }
  destruct dst as [| | | | | | | | | | | | | |[l|]|[l|]];
    try (intros [= <- <-]; auto);
    destruct (status src); cbn [pointers uint32s];
    try discriminate; try (intros [= <- <-]; auto);
    try (destruct (decide _) as [Hl|]; [|discriminate]; intros [= <- <-]).
  - unfold heap_wf. cbn. rewrite length_insert. auto.
  - unfold heap_wf. cbn. rewrite length_insert.
    split; [|auto]. apply Forall_insert; [exact Hwf|exact I].
  - unfold heap_wf. cbn. rewrite length_insert.
    split; [|auto]. apply Forall_insert; [exact Hwf|exact I].
  - unfold heap_wf. cbn. rewrite length_insert, length_app. simpl.
    split; [|lia]. apply Forall_insert.
    + specialize (Hgrow (Uint src)). rewrite length_app in Hgrow. exact Hgrow.
    + lia.
Qed.

Lemma AssignTo_keeps_heap_wf_witness :
  heap_wf {| uint32s := [7; 42]; pointers := [Some 1%nat] |}
  /\ (length [7] <= length [7; 42])%nat
  /\ length [Some 1%nat] = length [Some 0%nat].
Proof.
  apply (AssignTo_keeps_heap_wf {| Uint := 42; status := Present |}
           (VPtrPtrUint32 (Some 0%nat))
           {| uint32s := [7]; pointers := [Some 0%nat] |}
           {| uint32s := [7; 42]; pointers := [Some 1%nat] |} None).
  - repeat constructor.
  - reflexivity.
Defined.

(** ** The wire forms *)

Lemma PutUint32_big_endian (b0 b1 b2 b3 : byte) :
  BigEndian.PutUint32 (pgtype.big_endian_value b0 b1 b2 b3) = [b0; b1; b2; b3].
Proof.
  unfold BigEndian.PutUint32, pgtype.big_endian_value.
  pose proof (byte_to_Z_range b0). pose proof (byte_to_Z_range b1).
  pose proof (byte_to_Z_range b2). pose proof (byte_to_Z_range b3).
  set (x0 := byte_to_Z b0) in *. set (x1 := byte_to_Z b1) in *.
  set (x2 := byte_to_Z b2) in *. set (x3 := byte_to_Z b3) in *.
  rewrite !Z.shiftr_div_pow2 by lia.
  change (2 ^ 24) with 16777216. change (2 ^ 16) with 65536.
  change (2 ^ 8) with 256.
  set (v := x0 * 16777216 + x1 * 65536 + x2 * 256 + x3).
  assert (E0 : v / 16777216 = x0)
    by (symmetry; apply (Z.div_unique v 16777216 x0 (x1 * 65536 + x2 * 256 + x3));
        unfold v; lia).
  assert (E1 : v / 65536 = x0 * 256 + x1)
    by (symmetry; apply (Z.div_unique v 65536 _ (x2 * 256 + x3));
        unfold v; lia).
  assert (E2 : v / 256 = x0 * 65536 + x1 * 256 + x2)
    by (symmetry; apply (Z.div_unique v 256 _ x3); unfold v; lia).
  assert (M0 : Z_to_byte (v / 16777216) = b0)
    by (rewrite E0; apply Z_to_byte_to_Z).
  assert (Hmod : forall a x b, 0 <= x < 256 -> byte_to_Z b = x ->
                               Z_to_byte (a * 256 + x) = b).
  { intros a x b Hx Hb. apply byte_to_Z_inj. rewrite byte_to_Z_to_byte, Hb.
    rewrite Z.add_comm, Z.mod_add by lia. apply Z.mod_small. exact Hx. }
  rewrite M0, E1, E2.
  rewrite (Hmod x0 x1 b1) by (auto; lia).
  replace (x0 * 65536 + x1 * 256 + x2) with ((x0 * 256 + x1) * 256 + x2) by lia.
  rewrite (Hmod _ x2 b2) by (auto; lia).
  replace v with ((x0 * 65536 + x1 * 256 + x2) * 256 + x3) by (unfold v; lia).
  rewrite (Hmod _ x3 b3) by (auto; lia).
  reflexivity.
Qed.

(** X4. Decoding a binary value and encoding the result gives the input
    back: after a [DecodeBinary] without error, [EncodeBinary] appends
    exactly the decoded bytes, and signals null for the nil input. *)
Theorem DecodeBinary_EncodeBinary (dst p : pguint32) (src : option (list byte))
  (buf : list byte) :
  pgtype.DecodeBinary dst src = (p, None) ->
  pgtype.EncodeBinary p buf
  = match src with
    | Some s => (buf ++ s, (false, None))
    | None => (buf, (true, None))
    end.
Proof.
  destruct src as [s|]; [|intros [= <-]; reflexivity].
  intros Hd. destruct (Z.eq_dec (len s) 4) as [Hl|Hl].
  - destruct (len_4 s Hl) as (b0 & b1 & b2 & b3 & ->).
    rewrite DecodeBinary_four in Hd. injection Hd as <-.
    unfold pgtype.EncodeBinary, pgio.WriteUint32. cbn [status Uint].
    rewrite PutUint32_big_endian. reflexivity.
  - unfold pgtype.DecodeBinary in Hd.
    rewrite (proj2 (Z.eqb_neq (len s) 4) Hl) in Hd. discriminate.
Qed.

Lemma DecodeBinary_EncodeBinary_witness :
  pgtype.EncodeBinary {| Uint := 16909060; status := Present |} [xff]
  = ([xff] ++ [x01; x02; x03; x04], (false, None)).
Proof.
  apply (DecodeBinary_EncodeBinary (pguint32_Status Undefined)
           {| Uint := 16909060; status := Present |}
           (Some [x01; x02; x03; x04]) [xff]).
  vm_compute. reflexivity.
Defined.

Lemma formatBits_head (fuel : nat) :
  forall u a, 1 <= u < 10 ^ Z.of_nat (S fuel) ->
    exists d rest, strconv.formatBits fuel u 10 a = d :: rest
                   /\ byte_to_Z d <> 48.
Proof.
  induction fuel as [|fuel IH]; intros u a Hu.
  - simpl in Hu. simpl. eexists _, _. split; [reflexivity|].
    destruct (digit_char_decimal u ltac:(lia)) as [_ Hv]. lia.
  - cbn [strconv.formatBits]. destruct (u >=? 10) eqn:Hge.
    + rewrite Z.geb_leb in Hge. apply Z.leb_le in Hge.
      rewrite Nat2Z.inj_succ, Z.pow_succ_r in Hu by lia.
      apply IH. split.
      * apply Z.div_le_lower_bound; lia.
      * apply Z.div_lt_upper_bound; lia.
    + rewrite Z.geb_leb in Hge. apply Z.leb_gt in Hge.
      eexists _, _. split; [reflexivity|].
      destruct (digit_char_decimal u ltac:(lia)) as [_ Hv]. lia.
Qed.

Lemma formatBits_length (fuel : nat) :
  forall (k : nat) u a, 0 <= u < 10 ^ Z.of_nat (S k) ->
    (length (strconv.formatBits fuel u 10 a) <= S k + length a)%nat.
Proof.
  induction fuel as [|fuel IH]; intros k u a Hu; [simpl; lia|].
  cbn [strconv.formatBits]. destruct (u >=? 10) eqn:Hge; [|simpl; lia].
  rewrite Z.geb_leb in Hge. apply Z.leb_le in Hge.
  destruct k as [|k]; [simpl in Hu; lia|].
  rewrite Nat2Z.inj_succ, Z.pow_succ_r in Hu by lia.
  assert (Hq : 0 <= u / 10 < 10 ^ Z.of_nat (S k))
    by (split; [apply Z.div_pos; lia | apply Z.div_lt_upper_bound; lia]).
  specialize (IH k (u / 10) (strconv.digit_char (u - u / 10 * 10) :: a) Hq).
  simpl length in IH. lia.
Qed.

(** The digits [FormatUint] writes for an unsigned 32-bit number. *)
Lemma FormatUint_canonical (v : Z) :
  0 <= v < 2 ^ 32 ->
  exists d rest,
    strconv.FormatUint v 10 = d :: rest
    /\ forallb pgtype.is_decimal_digit (d :: rest) = true
    /\ (length (d :: rest) <= 10)%nat
    /\ (v = 0 -> d :: rest = bytes_of "0")
    /\ (v <> 0 -> d <> x30).
Proof.
  intros Hv.
  destruct (FormatUint_decimal v Hv) as [(Hne & Hd & _) _].
  assert (Hlen : (length (strconv.FormatUint v 10) <= 10)%nat).
  { pose proof (formatBits_length 64 9 v [] ltac:(simpl;
      change (10 ^ Z.of_nat 10) with 10000000000; lia)) as H.
    change (length (@nil byte)) with 0%nat in H.
    unfold strconv.FormatUint. lia. }
  destruct (Z.eq_dec v 0) as [->|Hnz].
  - exists x30, []. repeat split; try reflexivity; try (simpl; lia).
  - assert (Hb : 1 <= v < 10 ^ Z.of_nat 65).
    { split; [lia|]. apply Z.lt_trans with (2 ^ 32); [lia|reflexivity]. }
    destruct (formatBits_head 64 v [] Hb) as (d & rest & Hf & Hd0).
    unfold strconv.FormatUint in *. rewrite Hf in *.
    exists d, rest. repeat split; try assumption.
    + intros; congruence.
    + intros _ ->. apply Hd0. reflexivity.
Qed.

(** X5. [EncodeText] writes the canonical decimal form: for an unsigned
    32-bit [v] the bytes appended to a buffer are between one and ten
    decimal digits, they are the single digit 0 when [v] is 0, and they do
    not start with the digit 0 otherwise. *)
Theorem EncodeText_canonical (v : Z) (buf : list byte) :
  0 <= v < 2 ^ 32 ->
  exists d rest,
    pgtype.EncodeText {| Uint := v; status := Present |} buf
    = (buf ++ d :: rest, (false, None))
    /\ forallb pgtype.is_decimal_digit (d :: rest) = true
    /\ (length (d :: rest) <= 10)%nat
    /\ (v = 0 -> d :: rest = bytes_of "0")
    /\ (v <> 0 -> d <> x30).
Proof.
  intros Hv. unfold pgtype.EncodeText, io.WriteString. cbn [status Uint].
  rewrite (Z.mod_small v (2 ^ 64)) by lia.
  destruct (FormatUint_canonical v Hv) as (d & rest & -> & H).
  exists d, rest. split; [reflexivity|exact H].
Qed.

Lemma EncodeText_canonical_witness :
  exists d rest,
    pgtype.EncodeText {| Uint := 4294967295; status := Present |} []
    = ([] ++ d :: rest, (false, None))
    /\ forallb pgtype.is_decimal_digit (d :: rest) = true
    /\ (length (d :: rest) <= 10)%nat
    /\ (4294967295 = 0 -> d :: rest = bytes_of "0")
    /\ (4294967295 <> 0 -> d <> x30).
Proof.
  apply (EncodeText_canonical 4294967295 []). lia.
Defined.

(** X6. A decoder that returns no error leaves a value that is [Null] or
    [Present], never [Undefined], and whose number is an unsigned 32-bit
    integer, whatever the destination held before. *)
Theorem Decode_result_valid (dst p : pguint32) (src : option (list byte)) :
  pgtype.DecodeText dst src = (p, None)
  \/ pgtype.DecodeBinary dst src = (p, None) ->
  status p <> Undefined /\ 0 <= Uint p < 2 ^ 32.
Proof.
  intros [H|H].
  - unfold pgtype.DecodeText in H. destruct src as [s|].
    + destruct (strconv.ParseUint s 10 32) as [n [e|]]; [discriminate|].
      injection H as <-. simpl. split; [discriminate|].
      apply Z.mod_pos_bound. reflexivity.
    + injection H as <-. simpl. split; [discriminate|lia].
  - destruct src as [s|].
    + destruct (Z.eq_dec (len s) 4) as [Hl|Hl].
      * destruct (len_4 s Hl) as (b0 & b1 & b2 & b3 & ->).
        rewrite DecodeBinary_four in H. injection H as <-. simpl.
        split; [discriminate|apply big_endian_value_range].
      * unfold pgtype.DecodeBinary in H.
        rewrite (proj2 (Z.eqb_neq (len s) 4) Hl) in H. discriminate.
    + injection H as <-. simpl. split; [discriminate|lia].
Qed.

Lemma Decode_result_valid_witness :
  status {| Uint := 4294967295; status := Present |} <> Undefined
  /\ 0 <= Uint {| Uint := 4294967295; status := Present |} < 2 ^ 32.
Proof.
  apply (Decode_result_valid {| Uint := 2 ^ 40; status := Undefined |}
           {| Uint := 4294967295; status := Present |}
           (Some [xff; xff; xff; xff])).
  right. vm_compute. reflexivity.
Defined.

Lemma decimal_uint32_zero (s : list byte) :
  pgtype.decimal_uint32 s ->
  pgtype.decimal_uint32 (x30 :: s)
  /\ pgtype.decimal_value (x30 :: s) = pgtype.decimal_value s.
Proof.
  intros (Hne & Hd & Hlt).
  assert (Hv : pgtype.decimal_value (x30 :: s) = pgtype.decimal_value s)
    by reflexivity.
  split; [|exact Hv]. split; [discriminate|]. split.
  - cbn [forallb]. rewrite Hd. reflexivity.
  - rewrite Hv. exact Hlt.
Qed.

(** X7. Leading zeros do not matter to [DecodeText]: a string it accepts is
    decoded to the same value with any number of digits 0 in front. *)
Theorem DecodeText_leading_zeros (dst : pguint32) (s : list byte) (n : nat) :
  pgtype.decimal_uint32 s ->
  pgtype.DecodeText dst (Some (repeat x30 n ++ s))
  = pgtype.DecodeText dst (Some s).
Proof.
  intros Hs. rewrite (DecodeText_decimal dst s Hs).
  assert (H : pgtype.decimal_uint32 (repeat x30 n ++ s)
              /\ pgtype.decimal_value (repeat x30 n ++ s)
                 = pgtype.decimal_value s).
  { induction n as [|n [IH1 IH2]]; [auto|].
    cbn [repeat app]. destruct (decimal_uint32_zero _ IH1) as [H1 H2].
    split; [exact H1|]. rewrite H2. exact IH2. }
  destruct H as [H1 H2]. rewrite (DecodeText_decimal dst _ H1), H2.
  reflexivity.
Qed.

Lemma DecodeText_leading_zeros_witness :
  pgtype.DecodeText (pguint32_Status Undefined)
    (Some (repeat x30 3 ++ bytes_of "42"))
  = pgtype.DecodeText (pguint32_Status Undefined) (Some (bytes_of "42")).
Proof.
  apply (DecodeText_leading_zeros (pguint32_Status Undefined)
           (bytes_of "42") 3).
  split; [discriminate | split; vm_compute; reflexivity].
Defined.

Lemma ParseUint_loop_digit (d : byte) (s : list byte) (n : Z) :
  pgtype.is_decimal_digit d = true ->
  0 <= n <= pgtype.maxUint32 ->
  strconv.ParseUint_loop 10 pgtype.cutoff10 pgtype.maxUint32 (d :: s) n
  = if pgtype.dec_step n d >? pgtype.maxUint32
    then (strconv.maxUint64, Some ErrRange)
    else strconv.ParseUint_loop 10 pgtype.cutoff10 pgtype.maxUint32 s
           (pgtype.dec_step n d).
Proof.
  intros Hd Hn. cbn [strconv.ParseUint_loop].
  destruct (digit_val_decimal d Hd) as [-> Hv].
  set (v := byte_to_Z d - 48) in *.
  assert (Hmax : pgtype.maxUint32 = 4294967295) by reflexivity.
  assert (Hcut : pgtype.cutoff10 = 1844674407370955162) by reflexivity.
  rewrite (Z.mod_small v) by lia. change (10 mod 256) with 10.
  rewrite (geb_lt v 10) by lia.
  rewrite (geb_lt n pgtype.cutoff10) by lia.
  unfold strconv.uint64. change (2 ^ 64) with 18446744073709551616.
  rewrite (Z.mod_small (n * 10)) by lia.
  rewrite (Z.mod_small (n * 10 + v)) by lia.
  rewrite (proj2 (Z.ltb_ge (n * 10 + v) (n * 10))) by lia.
  rewrite orb_false_l.
  replace (pgtype.dec_step n d) with (n * 10 + v)
    by (unfold pgtype.dec_step, v; lia).
  reflexivity.
Qed.

Lemma ParseUint_loop_range (s : list byte) :
  forall n, 0 <= n <= pgtype.maxUint32 ->
    forallb pgtype.is_decimal_digit s = true ->
    pgtype.maxUint32 < fold_left pgtype.dec_step s n ->
    strconv.ParseUint_loop 10 pgtype.cutoff10 pgtype.maxUint32 s n
    = (strconv.maxUint64, Some ErrRange).
Proof.
  induction s as [|d s IH]; intros n Hn Hd Hov.
  - simpl in Hov. lia.
  - cbn [forallb] in Hd. apply andb_true_iff in Hd as [Hd Hs].
    rewrite (ParseUint_loop_digit d s n Hd Hn).
    destruct (pgtype.dec_step n d >? pgtype.maxUint32) eqn:Hgt;
      [reflexivity|].
    rewrite Z.gtb_ltb in Hgt. apply Z.ltb_ge in Hgt.
    destruct (digit_val_decimal d Hd) as [_ Hv].
    apply IH; [unfold pgtype.dec_step in *; lia | exact Hs | exact Hov].
Qed.

Lemma ParseUint_loop_syntax (p : list byte) (c : byte) (t : list byte) :
  forall n, 0 <= n <= pgtype.maxUint32 ->
    forallb pgtype.is_decimal_digit p = true ->
    fold_left pgtype.dec_step p n <= pgtype.maxUint32 ->
    pgtype.is_decimal_digit c = false ->
    strconv.ParseUint_loop 10 pgtype.cutoff10 pgtype.maxUint32
      (p ++ c :: t) n
    = (0, Some ErrSyntax).
Proof.
  induction p as [|d p IH]; intros n Hn Hd Hle Hc.
  - cbn [app strconv.ParseUint_loop].
    destruct (digit_val_other c Hc) as [->|(v & -> & Hv)]; [reflexivity|].
    rewrite (Z.mod_small v) by lia. change (10 mod 256) with 10.
    rewrite (geb_ge v 10) by lia. reflexivity.
  - cbn [forallb] in Hd. apply andb_true_iff in Hd as [Hd Hs].
    cbn [app]. rewrite (ParseUint_loop_digit d _ n Hd Hn).
    cbn [fold_left] in Hle.
    destruct (digit_val_decimal d Hd) as [_ Hv].
    assert (Hstep : 0 <= pgtype.dec_step n d)
      by (unfold pgtype.dec_step; lia).
    pose proof (fold_dec_step_mono p _ Hstep Hs).
    rewrite (gtb_le (pgtype.dec_step n d) pgtype.maxUint32) by lia.
    apply IH; [lia | exact Hs | exact Hle | exact Hc].
Qed.

(** X8. The error of [DecodeText] tells what was wrong: the empty string is
    a syntax error; a string of decimal digits denoting 2^32 or more is a
    range error; and a byte that is not a decimal digit, after digits whose
    value still fits in 32 bits, is a syntax error whatever follows it. In
    each case the error carries the whole input. *)
Theorem DecodeText_error_kind (dst : pguint32) (p : list byte) (c : byte)
  (t : list byte) :
  pgtype.DecodeText dst (Some [])
  = (dst, Some (NumError "ParseUint" [] ErrSyntax))
  /\ (p <> [] -> forallb pgtype.is_decimal_digit p = true ->
      2 ^ 32 <= pgtype.decimal_value p ->
      pgtype.DecodeText dst (Some p)
      = (dst, Some (NumError "ParseUint" p ErrRange)))
  /\ (forallb pgtype.is_decimal_digit p = true ->
      pgtype.decimal_value p < 2 ^ 32 ->
      pgtype.is_decimal_digit c = false ->
      pgtype.DecodeText dst (Some (p ++ c :: t))
      = (dst, Some (NumError "ParseUint" (p ++ c :: t) ErrSyntax))).
Proof.
  assert (H0 : 0 <= 0 <= pgtype.maxUint32) by (unfold pgtype.maxUint32; lia).
  split; [reflexivity|]. split.
  - intros Hne Hd Hov. unfold pgtype.DecodeText, strconv.ParseUint.
    destruct p as [|d p]; [congruence|].
    replace (len (d :: p) <? 1) with false
      by (symmetry; apply Z.ltb_ge; unfold len; simpl length; lia).
    change (strconv.maxUint64 / 10 + 1) with pgtype.cutoff10.
    change (2 ^ 32 - 1) with pgtype.maxUint32.
    rewrite (ParseUint_loop_range (d :: p) 0 H0 Hd); [reflexivity|].
    rewrite decimal_value_fold in Hov. unfold pgtype.maxUint32. lia.
  - intros Hd Hlt Hc. unfold pgtype.DecodeText, strconv.ParseUint.
    replace (len (p ++ c :: t) <? 1) with false
      by (symmetry; apply Z.ltb_ge; unfold len; rewrite length_app;
          simpl length; lia).
    change (strconv.maxUint64 / 10 + 1) with pgtype.cutoff10.
    change (2 ^ 32 - 1) with pgtype.maxUint32.
    rewrite (ParseUint_loop_syntax p c t 0 H0 Hd); [reflexivity| |exact Hc].
    rewrite decimal_value_fold in Hlt. unfold pgtype.maxUint32. lia.
Qed.

Lemma DecodeText_error_kind_witness :
  pgtype.DecodeText (pguint32_Status Null) (Some (bytes_of "4294967296"))
  = (pguint32_Status Null,
     Some (NumError "ParseUint" (bytes_of "4294967296") ErrRange))
  /\ pgtype.DecodeText (pguint32_Status Null)
       (Some (bytes_of "12" ++ "-"%byte :: bytes_of "99999999999"))
     = (pguint32_Status Null,
        Some (NumError "ParseUint"
                (bytes_of "12" ++ "-"%byte :: bytes_of "99999999999")
                ErrSyntax)).
Proof.
  split.
  - apply (proj1 (proj2 (DecodeText_error_kind (pguint32_Status Null)
                           (bytes_of "4294967296") x00 []))).
    + discriminate.
    + vm_compute. reflexivity.
    + vm_compute. discriminate.
  - apply (proj2 (proj2 (DecodeText_error_kind (pguint32_Status Null)
                           (bytes_of "12") "-"%byte
                           (bytes_of "99999999999")))).
    + vm_compute. reflexivity.
    + vm_compute. reflexivity.
    + vm_compute. reflexivity.
Defined.

(** X9. From a native value to a native value, with no error on the way: for
    an unsigned 32-bit [v], [ConvertFrom] returns no error; [EncodeBinary]
    and [EncodeText] of the value write to a buffer and return false and no
    error; [DecodeBinary] and [DecodeText] of the written bytes return no
    error; and [AssignTo] of either decoded value into a non-nil [*uint32]
    returns no error and leaves [v] in the variable. *)
Theorem native_to_native (v : Z) (d0 d1 : pguint32) (h : Heap) (l : loc) :
  in_range (VUint32 v) ->
  (l < length (uint32s h))%nat ->
  exists p bin txt qb qt hb ht,
    pgtype.ConvertFrom d0 (VUint32 v) = (p, None)
    /\ pgtype.EncodeBinary p [] = (bin, (false, None))
    /\ pgtype.EncodeText p [] = (txt, (false, None))
    /\ pgtype.DecodeBinary d1 (Some bin) = (qb, None)
    /\ pgtype.DecodeText d1 (Some txt) = (qt, None)
    /\ pgtype.AssignTo qb (VPtrUint32 (Some l)) h = Return None hb
    /\ uint32s hb !! l = Some v
    /\ pgtype.AssignTo qt (VPtrUint32 (Some l)) h = Return None ht
    /\ uint32s ht !! l = Some v.
Proof.
  intros Hv Hl. simpl in Hv.
  destruct (encode_decode_present_aux v d1 Hv) as (Hb & Ht).
  exists {| Uint := v; status := Present |},
         (fst (pgtype.EncodeBinary {| Uint := v; status := Present |} [])),
         (fst (pgtype.EncodeText {| Uint := v; status := Present |} [])),
         {| Uint := v; status := Present |},
         {| Uint := v; status := Present |}.
  eexists _, _.
  split; [reflexivity|]. split; [reflexivity|].
  split.
  { unfold pgtype.EncodeText, io.WriteString. cbn [status Uint].
    reflexivity. }
  split; [exact Hb|]. split; [exact Ht|].
  rewrite (AssignTo_stores {| Uint := v; status := Present |} h l eq_refl Hl).
  cbn [uint32s Uint].
  repeat split; apply list_lookup_insert_eq; exact Hl.
Qed.

Lemma native_to_native_witness :
  exists p bin txt qb qt hb ht,
    pgtype.ConvertFrom (pguint32_Status Undefined) (VUint32 258) = (p, None)
    /\ pgtype.EncodeBinary p [] = (bin, (false, None))
    /\ pgtype.EncodeText p [] = (txt, (false, None))
    /\ pgtype.DecodeBinary (pguint32_Status Null) (Some bin) = (qb, None)
    /\ pgtype.DecodeText (pguint32_Status Null) (Some txt) = (qt, None)
    /\ pgtype.AssignTo qb (VPtrUint32 (Some 0%nat))
         {| uint32s := [7]; pointers := [] |} = Return None hb
    /\ uint32s hb !! 0%nat = Some 258
    /\ pgtype.AssignTo qt (VPtrUint32 (Some 0%nat))
         {| uint32s := [7]; pointers := [] |} = Return None ht
    /\ uint32s ht !! 0%nat = Some 258.
Proof.
  apply (native_to_native 258 (pguint32_Status Undefined)
           (pguint32_Status Null) {| uint32s := [7]; pointers := [] |} 0%nat).
  - simpl. lia.
  - simpl. lia.
Defined.

Lemma decimal_value_snoc (s : list byte) (d : byte) :
  pgtype.decimal_value (s ++ [d])
  = 10 * pgtype.decimal_value s + (byte_to_Z d - 48).
Proof.
  unfold pgtype.decimal_value. rewrite fold_left_app. reflexivity.
Qed.

Lemma digit_char_of_digit (d : byte) :
  pgtype.is_decimal_digit d = true ->
  strconv.digit_char (byte_to_Z d - 48) = d.
Proof.
  intros Hd. destruct (digit_val_decimal d Hd) as [_ Hv].
  unfold strconv.digit_char.
  rewrite (proj2 (Z.ltb_lt _ _)) by lia.
  replace (48 + (byte_to_Z d - 48)) with (byte_to_Z d) by lia.
  apply Z_to_byte_to_Z.
Qed.

Lemma decimal_value_positive (d : byte) (s : list byte) :
  d <> x30 ->
  forallb pgtype.is_decimal_digit (d :: s) = true ->
  1 <= pgtype.decimal_value (d :: s).
Proof.
  intros Hd Hs. cbn [forallb] in Hs. apply andb_true_iff in Hs as [Hd' Hs].
  destruct (digit_val_decimal d Hd') as [_ Hv].
  assert (byte_to_Z d <> 48).
  { intros E. apply Hd. apply byte_to_Z_inj. rewrite E. reflexivity. }
  unfold pgtype.decimal_value. cbn [fold_left].
  assert (H1 : 0 <= pgtype.dec_step 0 d) by (unfold pgtype.dec_step; lia).
  pose proof (fold_dec_step_mono s _ H1 Hs).
  unfold pgtype.dec_step in *. lia.
Qed.

(** [formatBits] writes back a digit string without a leading zero. *)
Lemma formatBits_of_digits (s : list byte) :
  forall (d : byte) (fuel : nat) (a : list byte),
    d <> x30 ->
    forallb pgtype.is_decimal_digit (d :: s) = true ->
    pgtype.decimal_value (d :: s) < 10 ^ Z.of_nat (S fuel) ->
    strconv.formatBits fuel (pgtype.decimal_value (d :: s)) 10 a
    = (d :: s) ++ a.
Proof.
  induction s as [|e s IH] using rev_ind; intros d fuel a Hd Hs Hlt.
  - cbn [forallb] in Hs. apply andb_true_iff in Hs as [Hd' _].
    destruct (digit_val_decimal d Hd') as [_ Hv].
    replace (pgtype.decimal_value [d]) with (byte_to_Z d - 48)
      by (unfold pgtype.decimal_value, pgtype.dec_step; simpl; lia).
    destruct fuel as [|fuel]; cbn [strconv.formatBits].
    + rewrite (digit_char_of_digit d Hd'). reflexivity.
    + rewrite (geb_lt _ 10) by lia.
      rewrite (digit_char_of_digit d Hd'). reflexivity.
  - change (d :: s ++ [e]) with ((d :: s) ++ [e]) in *.
    rewrite forallb_app in Hs. apply andb_true_iff in Hs as [Hs He].
    cbn [forallb] in He. rewrite andb_true_r in He.
    destruct (digit_val_decimal e He) as [_ Hv].
    pose proof (decimal_value_positive d s Hd Hs) as Hpos.
    rewrite decimal_value_snoc in *.
    set (v := pgtype.decimal_value (d :: s)) in *.
    set (x := byte_to_Z e - 48) in *.
    destruct fuel as [|fuel]; [simpl in Hlt; lia|].
    cbn [strconv.formatBits]. rewrite (geb_ge _ 10) by lia.
    assert (Hq : (10 * v + x) / 10 = v)
      by (symmetry; apply (Z.div_unique _ 10 v x); lia).
    rewrite Hq.
    replace (10 * v + x - v * 10) with x by lia.
    unfold x. rewrite (digit_char_of_digit e He).
    rewrite Nat2Z.inj_succ, Z.pow_succ_r in Hlt by lia.
    assert (Hv' : v < 10 ^ Z.of_nat (S fuel)) by lia.
    unfold v in *. rewrite (IH d fuel (e :: a) Hd Hs Hv').
    rewrite <- app_assoc. reflexivity.
Qed.

(** X10. The text round trip the other way: for an input [DecodeText]
    accepts, [EncodeText] of the decoded value writes the input back
    exactly when the input is canonical (no leading zero, or the single
    digit 0); otherwise it writes a different, canonical string. *)
Theorem DecodeText_EncodeText (dst : pguint32) (s buf : list byte) :
  pgtype.decimal_uint32 s ->
  (pgtype.EncodeText (fst (pgtype.DecodeText dst (Some s))) buf
   = (buf ++ s, (false, None))
   <-> pgtype.canonical_decimal s).
Proof.
  intros Hs. rewrite (DecodeText_decimal dst s Hs). cbn [fst].
  pose proof Hs as (Hne & Hd & Hlt).
  assert (H0 : 0 <= pgtype.decimal_value s).
  { rewrite decimal_value_fold. apply fold_dec_step_mono; [lia|exact Hd]. }
  destruct (FormatUint_canonical (pgtype.decimal_value s) ltac:(lia))
    as (d & rest & He & _ & _ & Hz & Hnz).
  split.
  - unfold pgtype.EncodeText, io.WriteString. cbn [status Uint].
    rewrite (Z.mod_small _ (2 ^ 64)) by lia. rewrite He.
    unfold Write, Buffer_Writer.
    intros [= E]. apply app_inv_head in E. subst s.
    unfold pgtype.canonical_decimal.
    destruct (Z.eq_dec (pgtype.decimal_value (d :: rest)) 0) as [Ez|Ez].
    + right. specialize (Hz Ez). injection Hz as _ ->. reflexivity.
    + left. apply Hnz. exact Ez.
  - intros Hcan. unfold pgtype.EncodeText, io.WriteString. cbn [status Uint].
    rewrite (Z.mod_small _ (2 ^ 64)) by lia.
    unfold strconv.FormatUint, Write, Buffer_Writer.
    destruct s as [|c s]; [contradiction|]. simpl in Hcan.
    destruct Hcan as [Hc| ->].
    + rewrite (formatBits_of_digits s c 64 [] Hc Hd).
      * rewrite app_nil_r. reflexivity.
      * apply Z.lt_trans with (2 ^ 32); [exact Hlt|reflexivity].
    + cbn [forallb] in Hd. apply andb_true_iff in Hd as [Hd _].
      destruct (digit_val_decimal c Hd) as [_ Hv].
      replace (pgtype.decimal_value [c]) with (byte_to_Z c - 48)
        by (unfold pgtype.decimal_value, pgtype.dec_step; simpl; lia).
      cbn [strconv.formatBits]. rewrite (geb_lt _ 10) by lia.
      rewrite (digit_char_of_digit c Hd). reflexivity.
Qed.

Lemma DecodeText_EncodeText_witness :
  pgtype.EncodeText
    (fst (pgtype.DecodeText (pguint32_Status Undefined) (Some (bytes_of "42"))))
    []
  = ([] ++ bytes_of "42", (false, None))
  <-> pgtype.canonical_decimal (bytes_of "42").
Proof.
  apply (DecodeText_EncodeText (pguint32_Status Undefined) (bytes_of "42") []).
  split; [discriminate | split; vm_compute; reflexivity].
Defined.

(** * Further properties of the batch controller, as the tests use it *)

Module batch_reading.
Import pgx batch_state batch_facts.

Lemma embedded_tests_pass :
  fst (TestConnBeginBatchContextCancelBeforeExecResults (mustConnect postgres)) = []
  /\ fst (TestConnBeginBatchContextCancelBeforeQueryResults (mustConnect postgres)) = []
  /\ fst (TestConnBeginBatchContextCancelBeforeFinish (mustConnect postgres)) = []
  /\ fst (TestConnBeginBatchCloseRowsPartiallyRead (mustConnect postgres)) = []
  /\ fst (TestConnBeginBatchQueryError (mustConnect postgres)) = [].
Proof. vm_compute. repeat split. Qed.


Lemma QueryResults_complete (srv : batchItem -> Result) (its : list batchItem)
  (j : nat) (it : batchItem) (rs : list (list Z)) (c : Z) (w : World) :
  synced srv its j w -> its !! j = Some it -> srv it = Complete rs c ->
  fst (QueryResults w) = None
  /\ rows_err (rows (snd (QueryResults w))) = None
  /\ reading srv its j
       (map DataRow rs ++ CommandComplete c
            :: respond (map srv (drop (S j) its)))
       (snd (QueryResults w)).
Proof.
  intros (Hc & Hd & Hb & Hr) Hit Hsrv.
  assert (Hlt : (j < length its)%nat) by (eapply lookup_lt_Some; exact Hit).
  assert (Hle : (length its <=? j)%nat = false) by (apply Nat.leb_gt; exact Hlt).
  rewrite (drop_S its it j Hit) in Hc. cbn [map respond] in Hc.
  rewrite Hsrv in Hc.
  destruct w as [cn d b rw]. simpl in Hc, Hd, Hb, Hr. subst cn d b.
  unfold QueryResults, accessor_guard. cbn. rewrite Hle. cbn.
  unfold RowsClose. cbn. rewrite Hr. cbn.
  split; [reflexivity|]. split; [reflexivity|]. repeat split.
Qed.


Lemma run_Next (n : nat) (w : World) :
  run (repeat OpNext (S n)) w = run (repeat OpNext n) (snd (Next w)).
Proof. reflexivity. Qed.









(** After a successful [Send], while nothing fatal has happened and the
    acknowledgement of the synchronisation marker is still to come. *)
Lemma Close_canceled (w : World) :
  sticky_fatal (err (batch w)) = None ->
  sent (batch w) = true ->
  alive (conn w) = true ->
  pendingReadyForQuery (conn w) = true ->
  fst (Close (snd (cancelFn w))) = Some Canceled
  /\ alive (conn (snd (Close (snd (cancelFn w))))) = false.
Proof.
  intros He Hs Ha Hp.
  destruct w as [[sv al inb pr] d [its rr st er rf] [ro re vs]].
  cbn -[sticky_fatal] in He, Hs, Ha, Hp. subst st al pr.
  unfold Close, cancelFn. cbn -[sticky_fatal drain]. rewrite He.
  unfold RowsClose, read_error. cbn -[sticky_fatal drain].
  destruct ro.
  - unfold rows_fatal, raise, die. cbn -[sticky_fatal drain]. rewrite He.
    cbn. split; reflexivity.
  - cbn -[sticky_fatal drain]. rewrite He.
    destruct (length its - rr)%nat as [|m] eqn:Hm.
    + cbn -[sticky_fatal]. unfold ensureConnectionReadyForQuery, read_error.
      cbn. split; reflexivity.
    + cbn [drain]. unfold bind, ExecResults, accessor_guard.
      cbn -[sticky_fatal drain]. rewrite He.
      unfold die. cbn -[sticky_fatal drain]. rewrite He. cbn.
      split; reflexivity.
Qed.

Lemma synced_usable (srv : batchItem -> Result) (its : list batchItem)
  (j : nat) (w : World) :
  synced srv its j w ->
  sticky_fatal (err (batch w)) = None /\ sent (batch w) = true
  /\ alive (conn w) = true /\ pendingReadyForQuery (conn w) = true.
Proof. intros (-> & _ & -> & _). repeat split. Qed.

Lemma reading_usable (srv : batchItem -> Result) (its : list batchItem)
  (j : nat) (c : Z) (ms : list Message) (m : nat) :
  forall (rs : list (list Z)) (w : World),
    reading srv its j (map DataRow rs ++ CommandComplete c :: ms) w ->
    sticky_fatal (err (batch (run (repeat OpNext m) w))) = None
    /\ sent (batch (run (repeat OpNext m) w)) = true
    /\ alive (conn (run (repeat OpNext m) w)) = true
    /\ pendingReadyForQuery (conn (run (repeat OpNext m) w)) = true.
Proof.
  induction m as [|m IH]; intros rs w (Hc & Hd & Hb & Hr).
  - change (run (repeat OpNext 0) w) with w. rewrite Hc, Hb. repeat split.
  - rewrite run_Next.
    destruct w as [cn d b [ro re vs]]. simpl in Hc, Hd, Hb, Hr.
    subst cn d b ro. destruct rs as [|r rs].
    + unfold Next, read_error. cbn. rewrite closed_Nexts by reflexivity.
      repeat split.
    + unfold Next, read_error. cbn. apply (IH rs). repeat split.
Qed.

(** X13. A cancellation before [Close] makes [Close] fail. In a sent batch
    whose consumed statements all completed (each consumed with
    [ExecResults], or with [QueryResults], any number of [Next] and
    [rows.Close()]), whether none, some or all of the statements were
    consumed: once the token is cancelled, [Close] returns the cancellation
    error and [IsAlive] reports false after it and after any further
    calls. The same holds when the rows of the next statement, which
    completes, were opened with [QueryResults] and read with any number of
    [Next] but not closed before the cancellation. *)
Theorem cancel_before_Close (srv : batchItem -> Result)
  (its : list batchItem) (accs : list Access) (m : nat) (ops : list Op) :
  (forall i it, (i < length accs)%nat -> its !! i = Some it ->
                exists rs c, srv it = Complete rs c) ->
  (length accs <= length its)%nat ->
  let w := run (concat (map consume accs)) (snd (Send (queued srv its))) in
  let wr := run (repeat OpNext m) (snd (QueryResults w)) in
  (fst (Close (snd (cancelFn w))) = Some Canceled
   /\ fst (IsAlive (run ops (snd (Close (snd (cancelFn w)))))) = false)
  /\ (forall it rs c, its !! length accs = Some it -> srv it = Complete rs c ->
        fst (Close (snd (cancelFn wr))) = Some Canceled
        /\ fst (IsAlive (run ops (snd (Close (snd (cancelFn wr)))))) = false).
Proof.
  intros Hok Hlen w wr.
  assert (Hw : synced srv its (length accs) w)
    by (apply consumed_prefix; assumption).
  split.
  - destruct (synced_usable _ _ _ _ Hw) as (He & Hs & Ha & Hp).
    destruct (Close_canceled w He Hs Ha Hp) as [Hc Hd].
    split; [exact Hc|]. unfold IsAlive. cbn [fst]. apply dead_run. exact Hd.
  - intros it rs c Hit Hsrv.
    destruct (QueryResults_complete srv its _ it rs c w Hw Hit Hsrv)
      as (_ & _ & Hrd).
    destruct (reading_usable srv its _ c _ m rs _ Hrd) as (He & Hs & Ha & Hp).
    destruct (Close_canceled wr He Hs Ha Hp) as [Hc Hd].
    split; [exact Hc|]. unfold IsAlive. cbn [fst]. apply dead_run. exact Hd.
Qed.

Lemma cancel_before_Close_witness :
  let its := [mk_batchItem "select pg_sleep(2)" [] [] [];
              mk_batchItem "select pg_sleep(2)" [] [] []] in
  let w := run (concat (map consume [ByExec]))
             (snd (Send (queued postgres its))) in
  let wr := run (repeat OpNext 0) (snd (QueryResults w)) in
  (fst (Close (snd (cancelFn w))) = Some Canceled
   /\ fst (IsAlive (run [OpBeginBatch; OpSend]
                      (snd (Close (snd (cancelFn w)))))) = false)
  /\ (forall it rs c, its !! length [ByExec] = Some it ->
        postgres it = Complete rs c ->
        fst (Close (snd (cancelFn wr))) = Some Canceled
        /\ fst (IsAlive (run [OpBeginBatch; OpSend]
                           (snd (Close (snd (cancelFn wr)))))) = false).
Proof.
  intros its.
  apply (cancel_before_Close postgres its [ByExec] 0 [OpBeginBatch; OpSend]).
  - intros i it Hi Hl. destruct i as [|i]; [|simpl in Hi; lia].
    simpl in Hl. injection Hl as <-. eexists _, _. reflexivity.
  - simpl. lia.
Defined.

End batch_reading.
